(** * WRR Economy: the ledger core of [app.py]

    A shallow embedding of the persistent ledger of [app.py] (balances,
    investments, the once-a-day cashout and the gambling route), together
    with the properties of its transaction engine.

    The SQLite store is an explicit value that every function threads
    through; the tables are finite maps keyed by their primary key, except
    [investments], whose rows are kept in rowid order because [cashout] sums
    over them in that order and [add_investment] updates the first match.

    Amounts are Python floats.  The functions below are written once, over
    an interface [Arith] of the arithmetic the source uses, and run on two
    instances: [F64], IEEE binary64 as Python computes it, and [Exact], the
    rationals, which is the arithmetic of the "real amounts" of the
    specification. *)

From Stdlib Require Import ZArith QArith Qcanon Lqa Uint63 Floats.
From stdpp Require Import base option list gmap strings fin_maps.

(** ** Arithmetic of amounts *)

Class Arith (num : Type) := {
  lit : Q → num;            (* a decimal literal of the source *)
  add : num → num → num;    (* x + y *)
  neg : num → num;          (* -x *)
  mul : num → num → num;    (* x * y *)
  div : num → num → num;    (* x / y *)
  ltb : num → num → bool;   (* x < y *)
}.

Declare Scope num_scope.
Delimit Scope num_scope with num.
Infix "+" := add : num_scope.
Infix "*" := mul : num_scope.
Infix "/" := div : num_scope.
Notation "- x" := (neg x) : num_scope.
Infix "<?" := ltb : num_scope.

(** Binary64: a decimal literal [n/d] is the correctly rounded quotient of
    the two integers, which is how Python reads it when both are exactly
    representable (all literals of [app.py] are). *)
Definition f64_lit (q : Q) : float :=
  let m := PrimFloat.of_uint63 (Uint63.of_Z (Z.abs (Qnum q))) in
  let d := PrimFloat.of_uint63 (Uint63.of_Z (Zpos (Qden q))) in
  if (Qnum q <? 0)%Z then PrimFloat.opp (PrimFloat.div m d) else PrimFloat.div m d.

#[export] Instance F64 : Arith float := {|
  lit := f64_lit;
  add := PrimFloat.add;
  neg := PrimFloat.opp;
  mul := PrimFloat.mul;
  div := PrimFloat.div;
  ltb := PrimFloat.ltb;
|}.

(** Exact rationals in canonical form, so that equal amounts are equal
    terms. *)
Definition Qcltb (x y : Qc) : bool :=
  match (x ?= y)%Qc with Lt => true | _ => false end.

#[export] Instance Exact : Arith Qc := {|
  lit := Q2Qc;
  add := Qcplus;
  neg := Qcopp;
  mul := Qcmult;
  div := Qcdiv;
  ltb := Qcltb;
|}.

(** ** The store *)

Record user_row := mk_user {
  username : string;
  last_cashout : option string;   (* ISO date, NULL until the first cashout *)
}.

Record inv_row (num : Type) := mk_inv {
  inv_user : nat;
  inv_asset : string;
  inv_shares : num;
}.
Arguments mk_inv {num}.
Arguments inv_user {num}.
Arguments inv_asset {num}.
Arguments inv_shares {num}.

(** Rows of [logs].  The text of a message is kept as its parts; the
    timestamp column is left out. *)
Inductive log_msg (num : Type) :=
  | MsgUserCreated (name : string)
  | MsgBalanceChanged (user_id : nat) (currency : string) (delta new : num)
  | MsgInvested (user_id : nat) (shares : num) (asset : string)
  | MsgCashedOut (user_id : nat) (total_eur wrr_units : num)
  | MsgText (text : string).
Arguments MsgUserCreated {num}.
Arguments MsgBalanceChanged {num}.
Arguments MsgInvested {num}.
Arguments MsgCashedOut {num}.
Arguments MsgText {num}.

Record log_row (num : Type) := mk_log {
  level : string;
  message : log_msg num;
}.
Arguments mk_log {num}.
Arguments level {num}.
Arguments message {num}.

(** The database [wrr_persistent.db] and the module-level dictionary
    [ASSET_PRICES], which [small_tick] mutates. *)
Record world (num : Type) := mk_world {
  users : gmap nat user_row;                 (* id ↦ row *)
  balances : gmap (nat * string) num;        (* PRIMARY KEY(user_id, currency) *)
  investments : list (inv_row num);          (* in rowid order *)
  logs : list (log_row num);                 (* in rowid order *)
  prices : gmap string num;                  (* asset ↦ price_eur *)
  asset_prices : gmap string num;            (* current value of ASSET_PRICES *)
}.
Arguments mk_world {num}.
Arguments users {num}.
Arguments balances {num}.
Arguments investments {num}.
Arguments logs {num}.
Arguments prices {num}.
Arguments asset_prices {num}.

(** What a route reports to the user. *)
Inductive flash (num : Type) :=
  | InsufficientFunds
  | Bought (shares : num) (asset : string) (units_needed : num) (currency : string)
  | DebitFailed
  | Won (payout : num) (currency : string)
  | Lost (units : num) (currency : string).
Arguments InsufficientFunds {num}.
Arguments Bought {num}.
Arguments DebitFailed {num}.
Arguments Won {num}.
Arguments Lost {num}.

Inductive cashout_msg (num : Type) :=
  | AlreadyCashedOutToday
  | CashedOut (total_eur wrr_units : num).
Arguments AlreadyCashedOutToday {num}.
Arguments CashedOut {num}.

(** Indexing a dictionary with a key it does not hold. *)
Inductive exn := KeyError (key : string).

#[export] Instance num_inhabited {num : Type} `{Arith num} : Inhabited num :=
  populate (lit 0).

Section Engine.
Context {num : Type} `{Arith num}.
Local Open Scope num_scope.

(** Rates (EUR per unit) and the initial asset prices. *)
Definition CURRENCY_RATES_EUR : gmap string num :=
  <["WRR" := lit 50.23]> (<["LC" := lit 20.54]> (<["KP" := lit 5.01]> ∅)).

Definition ASSET_PRICES : gmap string num :=
  <["WRR" := CURRENCY_RATES_EUR !!! "WRR"]>
    (<["WRRC" := lit 100]> (<["LBC" := lit 75]> (<["KSP" := lit 40]> ∅))).

(** *** Field updates *)
Definition set_users (w : world num) us : world num :=
  mk_world us (balances w) (investments w) (logs w) (prices w) (asset_prices w).
Definition set_balances (w : world num) bs : world num :=
  mk_world (users w) bs (investments w) (logs w) (prices w) (asset_prices w).
Definition set_investments (w : world num) iv : world num :=
  mk_world (users w) (balances w) iv (logs w) (prices w) (asset_prices w).
Definition set_prices (w : world num) ps : world num :=
  mk_world (users w) (balances w) (investments w) (logs w) ps (asset_prices w).

(** *** DB helpers *)
Definition log (w : world num) (lvl : string) (msg : log_msg num) : world num :=
  mk_world (users w) (balances w) (investments w)
           (logs w ++ [mk_log lvl msg]) (prices w) (asset_prices w).

Definition empty_db : world num :=
  mk_world ∅ ∅ [] [] ∅ ASSET_PRICES.

(* INSERT OR REPLACE of every item of ASSET_PRICES into prices *)
Definition init_db (w : world num) : world num :=
  set_prices w (asset_prices w ∪ prices w).

(** *** User helpers *)

(* the id SQLite gives a new row of [users]: one more than the largest *)
Definition lastrowid (us : gmap nat user_row) : nat :=
  S (max_list (elements (dom us))).

(* The password and its hash play no part in the ledger and are left out.
   An IntegrityError (the name is taken, or a balance row of the new id
   exists) leaves the store as it was. *)
Definition create_user (w : world num) (name : string) : bool * world num :=
  let uid := lastrowid (users w) in
  if decide (map_Exists (λ _ r, username r = name) (users w)) then (false, w)
  else if decide (map_Exists (λ c _, is_Some (balances w !! (uid, c))) CURRENCY_RATES_EUR)
  then (false, w)
  else
    let us := <[uid := mk_user name None]> (users w) in
    let zeros := map_fold (λ c _ bs, <[(uid, c) := lit 0]> bs) (balances w) CURRENCY_RATES_EUR in
    let bs := <[(uid, "KP") := lit 50]> (<[(uid, "LC") := lit 25]> (<[(uid, "WRR") := lit 10]> zeros)) in
    (true, log (set_balances (set_users w us) bs) "INFO" (MsgUserCreated name)).

Definition get_balances (w : world num) (user_id : nat) : gmap string num :=
  default ∅ (map_curry (M1:=gmap nat) (M2:=gmap string) (balances w) !! user_id).

Definition change_balance (w : world num) (user_id : nat) (currency : string)
    (delta : num) : bool * world num :=
  let bal := get_balances w user_id in
  let cur_amount := default (lit 0) (bal !! currency) in
  let new := cur_amount + delta in
  if new <? - lit 1e-8 then (false, w)
  else
    let w1 := set_balances w (<[(user_id, currency) := new]> (balances w)) in
    (true, log w1 "INFO" (MsgBalanceChanged user_id currency delta new)).

(* WHERE user_id=? AND asset=? *)
Definition holds (user_id : nat) (asset : string) (r : inv_row num) : Prop :=
  inv_user r = user_id ∧ inv_asset r = asset.

#[export] Instance holds_dec user_id asset r : Decision (holds user_id asset r).
Proof. unfold holds. apply _. Defined.

(* add to existing or insert; the row that [fetchone] returns is the first
   match in rowid order, and UPDATE ... WHERE id=? rewrites that row *)
Definition add_investment (w : world num) (user_id : nat) (asset : string)
    (shares : num) : world num :=
  let w1 :=
    match list_find (holds user_id asset) (investments w) with
    | Some (i, r) =>
        let new_shares := inv_shares r + shares in
        set_investments w (<[i := mk_inv (inv_user r) (inv_asset r) new_shares]> (investments w))
    | None =>
        set_investments w (investments w ++ [mk_inv user_id asset shares])
    end in
  log w1 "INFO" (MsgInvested user_id shares asset).

(* a dict comprehension: a later row of the same asset replaces an earlier one *)
Definition get_investments (w : world num) (user_id : nat) : gmap string num :=
  foldl (λ d r, <[inv_asset r := inv_shares r]> d) ∅
        (filter (λ r, inv_user r = user_id) (investments w)).

Definition clear_investments (w : world num) (user_id : nat) : world num :=
  set_investments w (filter (λ r, inv_user r ≠ user_id) (investments w)).

Definition get_price (w : world num) (asset : string) : num :=
  match prices w !! asset with
  | Some price_eur => price_eur
  | None => default (lit 1) (asset_prices w !! asset)
  end.

Definition update_price (w : world num) (asset : string) (price : num) : world num :=
  set_prices w (<[asset := price]> (prices w)).

(** *** Cashout (once per calendar day); [today] is [date.today().isoformat()] *)
Definition cashout (w : world num) (user_id : nat) (today : string)
    : bool * cashout_msg num * world num :=
  let row := users w !! user_id in
  let last := match row with Some r => last_cashout r | None => None end in
  if decide (last = Some today) then (false, AlreadyCashedOutToday, w)
  else
    (* calculate total EUR value of investments *)
    let rows := filter (λ r, inv_user r = user_id) (investments w) in
    let total_eur :=
      foldl (λ acc r, acc + inv_shares r * get_price w (inv_asset r)) (lit 0) rows in
    (* clear investments *)
    let w1 := set_investments w (filter (λ r, inv_user r ≠ user_id) (investments w)) in
    (* convert EUR to WRR units and credit *)
    let wrr_units :=
      if lit 0 <? CURRENCY_RATES_EUR !!! "WRR"
      then total_eur / (CURRENCY_RATES_EUR !!! "WRR") else lit 0 in
    let cur_wrr := default (lit 0) (balances w1 !! (user_id, "WRR")) in
    let new_wrr := cur_wrr + wrr_units in
    let w2 := set_balances w1 (<[(user_id, "WRR") := new_wrr]> (balances w1)) in
    (* set last_cashout *)
    let w3 := set_users w2 (alter (λ r, mk_user (username r) (Some today)) user_id (users w2)) in
    let w4 := log w3 "INFO" (MsgCashedOut user_id total_eur wrr_units) in
    (true, CashedOut total_eur wrr_units, w4).

(** *** Bootstrap: the database and the two demo users *)
Definition bootstrap (w : world num) : world num :=
  let w1 := init_db w in
  if decide (users w1 = ∅) then
    let w2 := (create_user w1 "alice").2 in
    let w3 := (create_user w2 "bob").2 in
    log w3 "INFO" (MsgText "Created demo users alice/bob")
  else w1.

(** *** Routes: the POST branch, for the logged-in user [uid] *)
Definition invest (w : world num) (uid : nat) (asset : string) (shares : num)
    (currency : string) : exn + (flash num * world num) :=
  let price_eur := get_price w asset in
  match CURRENCY_RATES_EUR !! currency with
  | None => inl (KeyError currency)
  | Some rate =>
      let units_needed := shares * price_eur / rate in
      (* check funds *)
      let bal := get_balances w uid in
      if default (lit 0) (bal !! currency) + lit 1e-9 <? units_needed
      then inr (InsufficientFunds, w)
      else
        (* debit and add investment *)
        let w1 := (change_balance w uid currency (- units_needed)).2 in
        let w2 := add_investment w1 uid asset shares in
        inr (Bought shares asset units_needed currency, w2)
  end.

(* [sample] is the value of [random.random()] *)
Definition gamble (w : world num) (uid : nat) (currency : string) (units : num)
    (sample : num) : flash num * world num :=
  let bal := get_balances w uid in
  if default (lit 0) (bal !! currency) + lit 1e-9 <? units
  then (InsufficientFunds, w)
  else
    let '(ok, w1) := change_balance w uid currency (- units) in
    if negb ok then (DebitFailed, w1)
    else
      let win := sample <? lit 0.45 in
      if win then
        let payout := units * lit 2 in
        (Won payout currency, (change_balance w1 uid currency payout).2)
      else (Lost units currency, w1).

(** The balance of an account in a currency: an absent row reads as zero. *)
Definition balance_of (w : world num) (user_id : nat) (currency : string) : num :=
  default (lit 0) (get_balances w user_id !! currency).

(** The date of the last cashout of an account, [None] when the row is
    absent or the column NULL. *)
Definition last_cashout_of (w : world num) (user_id : nat) : option string :=
  match users w !! user_id with Some r => last_cashout r | None => None end.

(** The rows of one account, and their value at the current prices, summed
    in row order from 0.0. *)
Definition rows_of (w : world num) (user_id : nat) : list (inv_row num) :=
  filter (λ r, inv_user r = user_id) (investments w).

Definition value_of (w : world num) (rows : list (inv_row num)) : num :=
  foldl (λ acc r, acc + inv_shares r * get_price w (inv_asset r)) (lit 0) rows.

(** The position of an account in an asset: the row [add_investment] reads. *)
Definition position (w : world num) (user_id : nat) (asset : string) : option num :=
  (inv_shares ∘ snd) <$>
    list_find (holds user_id asset) (investments w).
End Engine.

(** ** Sequences of engine operations *)

Inductive op (num : Type) :=
  | AdjustBalance (user_id : nat) (currency : string) (delta : num)
  | Invest (uid : nat) (asset : string) (shares : num) (currency : string)
  | Cashout (user_id : nat) (today : string)
  | Wager (uid : nat) (currency : string) (units sample : num).
Arguments AdjustBalance {num}.
Arguments Invest {num}.
Arguments Cashout {num}.
Arguments Wager {num}.

Section Run.
Context {num : Type} `{Arith num}.

(* a request that raises leaves the store as it was *)
Definition step (w : world num) (o : op num) : world num :=
  match o with
  | AdjustBalance user_id currency delta => (change_balance w user_id currency delta).2
  | Invest uid asset shares currency =>
      match invest w uid asset shares currency with
      | inl _ => w
      | inr (_, w') => w'
      end
  | Cashout user_id today => (cashout w user_id today).2
  | Wager uid currency units sample => (gamble w uid currency units sample).2
  end.

Definition run (w : world num) (ops : list (op num)) : world num :=
  foldl step w ops.
End Run.

(** ** The ledger invariant *)

(** What the invariant needs of the arithmetic of amounts, with [x < y]
    read as the code tests it: zero and one are not below zero, the WRR rate
    is above it, what is not below zero stays so under [+], [*] and
    [/ 50.23], and a credit that is not below zero does not take an amount
    below [-1e-8]. *)
Record ordered (num : Type) `{Arith num} : Prop := {
  zero_not_below : ltb (lit 0) (lit 0) = false;
  one_not_below : ltb (lit 1) (lit 0) = false;
  zero_above_eps : ltb (lit 0) (neg (lit 1e-8)) = false;
  rate_above_zero : ltb (lit 0) (lit 50.23) = true;
  sum_not_below : ∀ a b,
    ltb a (lit 0) = false → ltb b (lit 0) = false → ltb (add a b) (lit 0) = false;
  product_not_below : ∀ a b,
    ltb a (lit 0) = false → ltb b (lit 0) = false → ltb (mul a b) (lit 0) = false;
  quotient_not_below : ∀ a,
    ltb a (lit 0) = false → ltb (div a (lit 50.23)) (lit 0) = false;
  credit_not_below : ∀ a b,
    ltb a (neg (lit 1e-8)) = false → ltb b (lit 0) = false →
    ltb (add a b) (neg (lit 1e-8)) = false;
}.

(** No stored balance is below [-1e-8], as [change_balance] tests it, no
    share count and no price is below zero. *)
Definition ledger_ok {num : Type} `{Arith num} (w : world num) : Prop :=
  map_Forall (λ _ a, ltb a (neg (lit 1e-8)) = false) (balances w)
  ∧ Forall (λ r, ltb (inv_shares r) (lit 0) = false) (investments w)
  ∧ map_Forall (λ _ p, ltb p (lit 0) = false) (prices w)
  ∧ map_Forall (λ _ p, ltb p (lit 0) = false) (asset_prices w).

(** An operation that does not buy a number of shares below zero. *)
Definition buys_not_below {num : Type} `{Arith num} (o : op num) : Prop :=
  match o with
  | Invest _ _ shares _ => ltb shares (lit 0) = false
  | _ => True
  end.

(** The operations that write balances through [change_balance] only. *)
Definition guarded {num : Type} (o : op num) : Prop :=
  match o with
  | Cashout _ _ => False
  | _ => True
  end.

(** For exact amounts. *)

(** No balance below [-1e-8], no negative share count, no negative price. *)
Definition sound (w : world Qc) : Prop :=
  map_Forall (λ _ a, (- Q2Qc 1e-8 ≤ a)%Qc) (balances w)
  ∧ Forall (λ r, (0 ≤ inv_shares r)%Qc) (investments w)
  ∧ map_Forall (λ _ p, (0 ≤ p)%Qc) (prices w)
  ∧ map_Forall (λ _ p, (0 ≤ p)%Qc) (asset_prices w).

(** An operation that does not buy a negative number of shares. *)
Definition buys_nonneg (o : op Qc) : Prop :=
  match o with
  | Invest _ _ shares _ => (0 ≤ shares)%Qc
  | _ => True
  end.

(** Two binary64 amounts that are the same number: the same float, or two
    floats that compare equal (0.0 and -0.0). *)
Definition same_amount (x y : float) : Prop :=
  x = y ∨ PrimFloat.eqb x y = true.

(** A binary64 amount that is at least [c], or is not a number: what
    [a < c] being false says of [a]. *)
Definition at_least (c a : float) : Prop :=
  PrimFloat.leb c a = true ∨ PrimFloat.is_nan a = true.

(** The rational number that a finite binary64 amount is. *)
Definition f64_value (x : float) : Q :=
  match Prim2SF x with
  | S754_finite s m e => (if s then - inject_Z (Zpos m) else inject_Z (Zpos m)) * 2 ^ e
  | _ => 0
  end.

(** On the Standard Library's specification of binary64, [spec_float]:
    the floats that are not below zero (the zeros, the positive numbers,
    +infinity and NaN), the zeros and finite numbers, and the value of one
    of these counted in units of 2^-1074, the smallest positive float. *)
Definition sf_nonneg (x : spec_float) : bool :=
  match x with
  | S754_nan | S754_zero _ => true
  | S754_infinity s | S754_finite s _ _ => negb s
  end.

Definition sf_finite (x : spec_float) : bool :=
  match x with
  | S754_zero _ | S754_finite _ _ _ => true
  | _ => false
  end.

Definition sf_int (x : spec_float) : Z :=
  match x with
  | S754_finite s m e => cond_Zopp s (Zpos m * 2 ^ (e + 1074))
  | _ => 0
  end.

(** ** The rest of the module *)

Section Rest.
Context {num : Type} `{Arith num}.
Local Open Scope num_scope.

Definition set_asset_prices (w : world num) ap : world num :=
  mk_world (users w) (balances w) (investments w) (logs w) (prices w) ap.

(* SELECT * FROM users WHERE username=?, then [fetchone]; the column is
   UNIQUE, so at most one row matches *)
Definition get_user_by_username (w : world num) (name : string)
    : option (nat * user_row) :=
  head (filter (λ ir, username ir.2 = name) (map_to_list (users w))).

(* [max(x, y)] of Python: [y] when [y > x], otherwise [x] *)
Definition pymax (x y : num) : num := if x <? y then y else x.

Section SmallTick.
(* [round(x, 4)], and the value [random.uniform(-0.02, 0.02)] returns in the
   iteration of each asset *)
Variable round4 : num → num.
Variable uniform : string → num.

Definition tick_price (p pct : num) : num :=
  pymax (lit 0.01) (round4 (p * (lit 1 + pct))).

(* one iteration of the loop; [a] is a key of ASSET_PRICES *)
Definition tick_asset (w : world num) (a : string) : world num :=
  match asset_prices w !! a with
  | Some p =>
      let p' := tick_price p (uniform a) in
      update_price (set_asset_prices w (<[a := p']> (asset_prices w))) a p'
  | None => w
  end.

(* small random walk and persist snapshot prices *)
Definition small_tick (w : world num) : world num :=
  log (foldl tick_asset w (map_to_list (asset_prices w)).*1)
      "INFO" (MsgText "Market tick (small)").
End SmallTick.

(** The two ways [create_user] meets an IntegrityError: the name is taken,
    or the id of the new row already has a balance row in a currency. *)
Definition name_taken (w : world num) (name : string) : Prop :=
  map_Exists (λ _ r, username r = name) (users w).

Definition seed_conflict (w : world num) : Prop :=
  map_Exists (λ c _, is_Some (balances w !! (lastrowid (users w), c)))
             (CURRENCY_RATES_EUR (num:=num)).

(** No two rows of [users] share a name (the UNIQUE constraint). *)
Definition unique_usernames (us : gmap nat user_row) : Prop :=
  ∀ i j ri rj, us !! i = Some ri → us !! j = Some rj →
    username ri = username rj → i = j.

(** No two rows of [investments] share (user_id, asset). *)
Definition unique_rows (l : list (inv_row num)) : Prop :=
  NoDup ((λ r, (inv_user r, inv_asset r)) <$> l).

(** The account an operation is run for. *)
Definition op_user (o : op num) : nat :=
  match o with
  | AdjustBalance user_id _ _ => user_id
  | Invest uid _ _ _ => uid
  | Cashout user_id _ => user_id
  | Wager uid _ _ _ => uid
  end.
End Rest.

(** ** The code at work, in binary64 *)

Definition seeded : world float := bootstrap empty_db.

(** The same store with exact amounts. *)
Definition seeded_exact : world Qc := bootstrap empty_db.

(** The literals of the source, read as [f64_lit] reads them, are the
    floats that the decimal notation denotes. *)
#[warnings="-inexact-float"]
Example f64_literals :
  (f64_lit 50.23, f64_lit 20.54, f64_lit 5.01, f64_lit 1e-8, f64_lit 1e-9, f64_lit 0.45)
  = (50.23, 20.54, 5.01, 1e-8, 1e-9, 0.45)%float.
Proof. reflexivity. Qed.

Example seeded_balances :
  (balance_of seeded 1 "WRR", balance_of seeded 1 "LC", balance_of seeded 1 "KP")
  = (10%float, 25%float, 50%float).
Proof. vm_compute. reflexivity. Qed.

(** A new account invests 1 share of an asset priced at 100.0 with LC at
    rate 20.54, then cashes out twice on the same day. *)
Example invest_then_cashout_twice :
  match invest seeded 1 "WRRC" 1%float "LC" with
  | inr (Bought _ _ cost _, w1) =>
      cost = div (mul 1%float 100%float) (lit 20.54)
      ∧ balance_of w1 1 "LC" = add 25%float (neg cost)
      ∧ position w1 1 "WRRC" = Some 1%float
      ∧ match cashout w1 1 "2024-05-01" with
        | (true, CashedOut total credit, w2) =>
            total = 100%float
            ∧ credit = div 100%float (lit 50.23)
            ∧ balance_of w2 1 "WRR" = add 10%float credit
            ∧ rows_of w2 1 = []
            ∧ cashout w2 1 "2024-05-01" = (false, AlreadyCashedOutToday, w2)
        | _ => False
        end
  | _ => False
  end.
Proof. vm_compute. repeat split. Qed.

(** ** Reading the store *)

Section Reading.
Context {num : Type} `{Arith num}.
Local Open Scope num_scope.

Lemma get_balances_lookup (w : world num) u c :
  get_balances w u !! c = balances w !! (u, c).
Proof.
  unfold get_balances. rewrite <- lookup_map_curry.
  destruct (map_curry (balances w) !! u); simpl; [done | apply lookup_empty].
Qed.

Lemma balance_of_lookup (w : world num) u c :
  balance_of w u c = default (lit 0) (balances w !! (u, c)).
Proof. unfold balance_of. by rewrite get_balances_lookup. Qed.

Lemma balance_of_insert_eq (w w' : world num) u c x :
  balances w' = <[(u, c) := x]> (balances w) → balance_of w' u c = x.
Proof. intros E. by rewrite balance_of_lookup, E, lookup_insert_eq. Qed.

Lemma balance_of_insert_ne (w w' : world num) u c u' c' x :
  balances w' = <[(u, c) := x]> (balances w) → (u', c') ≠ (u, c) →
  balance_of w' u' c' = balance_of w u' c'.
Proof.
  intros E Hne. rewrite !balance_of_lookup, E. by rewrite lookup_insert_ne.
Qed.

Lemma balance_of_same (w w' : world num) u c :
  balances w' = balances w → balance_of w' u c = balance_of w u c.
Proof. intros E. by rewrite !balance_of_lookup, E. Qed.

(** [change_balance], case by case. *)
Lemma change_balance_reject (w : world num) u c delta :
  (balance_of w u c + delta <? - lit 1e-8) = true →
  change_balance w u c delta = (false, w).
Proof. unfold change_balance, balance_of. by intros ->. Qed.

Lemma change_balance_accept (w : world num) u c delta :
  (balance_of w u c + delta <? - lit 1e-8) = false →
  change_balance w u c delta =
    (true, log (set_balances w (<[(u, c) := balance_of w u c + delta]> (balances w)))
               "INFO" (MsgBalanceChanged u c delta (balance_of w u c + delta))).
Proof. unfold change_balance, balance_of. by intros ->. Qed.
End Reading.

(** ** The debit/credit primitive *)

Section ChangeBalance.
Context {num : Type} `{Arith num}.
Local Open Scope num_scope.

Lemma change_balance_cases (w : world num) u c delta :
  let new := balance_of w u c + delta in
  match change_balance w u c delta with
  | (false, w') => (new <? - lit 1e-8) = true ∧ w' = w
  | (true, w') =>
      (new <? - lit 1e-8) = false
      ∧ balances w' = <[(u, c) := new]> (balances w)
      ∧ logs w' = logs w ++ [mk_log "INFO" (MsgBalanceChanged u c delta new)]
      ∧ users w' = users w ∧ investments w' = investments w
      ∧ prices w' = prices w ∧ asset_prices w' = asset_prices w
  end.
Proof.
  intros new. destruct (new <? - lit 1e-8) eqn:E.
  - by rewrite (change_balance_reject _ _ _ _ E).
  - by rewrite (change_balance_accept _ _ _ _ E).
Qed.

(* what [change_balance] leaves alone, and what it writes *)
Lemma change_balance_frame (w : world num) u c delta :
  let r := change_balance w u c delta in
  (r.1 = true → balance_of r.2 u c = balance_of w u c + delta)
  ∧ (r.1 = false → r.2 = w)
  ∧ (∀ u' c', (u', c') ≠ (u, c) → balance_of r.2 u' c' = balance_of w u' c')
  ∧ users r.2 = users w ∧ investments r.2 = investments w
  ∧ prices r.2 = prices w ∧ asset_prices r.2 = asset_prices w.
Proof.
  intros r. subst r. pose proof (change_balance_cases w u c delta) as Hc.
  destruct (change_balance w u c delta) as [[] w']; cbn [fst snd].
  - destruct Hc as (_ & Hb & _ & Hu & Hi & Hp & Ha).
    split; [intros _; by eapply balance_of_insert_eq|]. split; [discriminate|].
    split; [|done]. intros u' c' Hne. by eapply balance_of_insert_ne.
  - destruct Hc as [_ ->]. by repeat split.
Qed.
End ChangeBalance.


(** ** Cashout *)

Section Cashout.
Context {num : Type} `{Arith num}.
Local Open Scope num_scope.

Lemma rate_WRR : CURRENCY_RATES_EUR (num:=num) !!! "WRR" = lit 50.23.
Proof. reflexivity. Qed.

Lemma cashout_refused (w : world num) uid today :
  last_cashout_of w uid = Some today →
  cashout w uid today = (false, AlreadyCashedOutToday, w).
Proof.
  unfold cashout, last_cashout_of. intros E.
  destruct (decide _) as [_|Hne]; [done|]. by destruct Hne.
Qed.

Lemma cashout_runs (w : world num) uid today :
  last_cashout_of w uid ≠ Some today →
  (lit 0 <? lit 50.23) = true →
  let total_eur := value_of w (rows_of w uid) in
  let wrr_units := total_eur / lit 50.23 in
  ∃ w', cashout w uid today = (true, CashedOut total_eur wrr_units, w')
    ∧ investments w' = filter (λ r, inv_user r ≠ uid) (investments w)
    ∧ balances w' = <[(uid, "WRR") := balance_of w uid "WRR" + wrr_units]> (balances w)
    ∧ users w' = alter (λ r, mk_user (username r) (Some today)) uid (users w)
    ∧ logs w' = logs w ++ [mk_log "INFO" (MsgCashedOut uid total_eur wrr_units)]
    ∧ prices w' = prices w ∧ asset_prices w' = asset_prices w.
Proof.
  intros Hne Hpos total_eur wrr_units.
  unfold cashout. fold (last_cashout_of w uid).
  destruct (decide _) as [E|_]; [done|].
  rewrite rate_WRR, Hpos. eexists. split; [reflexivity|].
  simpl. rewrite <- balance_of_lookup. done.
Qed.
End Cashout.

Section CashoutGate.
Context {num : Type} `{Arith num}.
Local Open Scope num_scope.

(* a cashout that goes through stamps the row of the account *)
Lemma cashout_done_users (w w1 : world num) uid today msg :
  cashout w uid today = (true, msg, w1) →
  users w1 = alter (λ r, mk_user (username r) (Some today)) uid (users w).
Proof.
  unfold cashout. destruct (decide _); [discriminate|].
  intros [= _ <-]. reflexivity.
Qed.

Lemma rows_of_cleared (l : list (inv_row num)) uid :
  filter (λ r, inv_user r = uid) (filter (λ r, inv_user r ≠ uid) l) = [].
Proof.
  induction l as [|x l IH]; [done|].
  rewrite (filter_cons (λ r, inv_user r ≠ uid)). case_decide; [|done].
  rewrite filter_cons. by case_decide.
Qed.

Lemma last_cashout_of_alter (w w1 : world num) uid today :
  is_Some (users w !! uid) →
  users w1 = alter (λ r, mk_user (username r) (Some today)) uid (users w) →
  last_cashout_of w1 uid = Some today.
Proof.
  intros [r Hr] E. unfold last_cashout_of.
  by rewrite E, lookup_alter_eq, Hr.
Qed.
End CashoutGate.

(** C2: for an account whose [last_cashout] is today's date, [cashout]
    answers "Already cashed out today" and returns the store as it was:
    balances, investments, the date and everything else.  In particular,
    after a cashout that went through, a second one on the same day is
    refused in this way. *)
Theorem cashout_once_a_day {num : Type} {A : Arith num}
    (w : world num) (uid : nat) (today : string) :
  is_Some (users w !! uid) →
  (last_cashout_of w uid = Some today →
     cashout w uid today = (false, AlreadyCashedOutToday, w))
  ∧ (∀ msg w1, cashout w uid today = (true, msg, w1) →
       cashout w1 uid today = (false, AlreadyCashedOutToday, w1)).
Proof.
  intros Hu. split.
  - apply cashout_refused.
  - intros msg w1 Hc. apply cashout_refused.
    eapply last_cashout_of_alter; [exact Hu|]. by eapply cashout_done_users.
Qed.

Lemma cashout_once_a_day_witness :
  let w1 := (cashout seeded 1 "2024-05-01").2 in
  cashout w1 1 "2024-05-01" = (false, AlreadyCashedOutToday, w1).
Proof.
  intros w1.
  refine (proj2 (cashout_once_a_day seeded 1 "2024-05-01" _)
                (cashout seeded 1 "2024-05-01").1.2 w1 _).
  - vm_compute. eexists. reflexivity.
  - vm_compute. reflexivity.
Defined.



(** C10: [get_price] is a total function: it returns the stored price when
    [prices] has a row for the asset, otherwise the entry of [ASSET_PRICES],
    otherwise 1.0.  With an asset known to neither, [invest] raises nothing
    on account of the asset: it runs the funds check with the cost
    [shares * 1.0 / rate] and, when the check passes, debits that cost and
    books the shares under the unknown asset code. *)
Theorem get_price_total {num : Type} {A : Arith num} (w : world num) (asset : string) :
  match prices w !! asset, asset_prices w !! asset with
  | Some p, _ => get_price w asset = p
  | None, Some p => get_price w asset = p
  | None, None =>
      get_price w asset = lit 1
      ∧ ∀ uid shares currency,
          match CURRENCY_RATES_EUR !! currency with
          | None => invest w uid asset shares currency = inl (KeyError currency)
          | Some rate =>
              let cost := div (mul shares (lit 1)) rate in
              invest w uid asset shares currency =
                if ltb (add (balance_of w uid currency) (lit 1e-9)) cost
                then inr (InsufficientFunds, w)
                else inr (Bought shares asset cost currency,
                          add_investment (change_balance w uid currency (neg cost)).2
                                         uid asset shares)
          end
  end.
Proof.
  unfold get_price.
  destruct (prices w !! asset) as [p|] eqn:Ep; [done|].
  destruct (asset_prices w !! asset) as [p|] eqn:Ea; [done|].
  split; [done|]. intros uid shares currency.
  unfold invest, get_price. rewrite Ep, Ea. simpl.
  by destruct (CURRENCY_RATES_EUR !! currency).
Qed.

Example invest_unknown_asset :
  match invest seeded 1 "DOGE" 2%float "KP" with
  | inr (Bought _ _ cost _, w') =>
      cost = div (mul 2%float (lit 1)) (lit 5.01) ∧ position w' 1 "DOGE" = Some 2%float
  | _ => False
  end.
Proof. vm_compute. split; reflexivity. Qed.

(** ** Investment rows *)

Section Rows.
Context {A : Type} (P : A → Prop) `{!∀ x, Decision (P x)}.

(* [fetchone] on a SELECT: the first row of those that match *)
Lemma list_find_head (l : list A) : snd <$> list_find P l = head (filter P l).
Proof.
  induction l as [|x l IH]; [done|]. cbn [list_find].
  rewrite filter_cons. case_decide; [done|].
  rewrite <- IH. by destruct (list_find P l) as [[]|].
Qed.

Lemma list_find_split (l : list A) i x :
  list_find P l = Some (i, x) →
  ∃ l1 l2, l = l1 ++ x :: l2 ∧ i = length l1 ∧ Forall (λ y, ¬ P y) l1 ∧ P x.
Proof.
  intros (Hi & Hx & Hleast)%list_find_Some.
  exists (take i l), (drop (S i) l).
  assert (i < length l) by eauto using lookup_lt_Some.
  split; [by rewrite take_drop_middle|].
  split; [rewrite length_take; lia|]. split; [|done].
  apply Forall_lookup. intros j y Hj.
  apply lookup_take_Some in Hj as [Hj ?]. eauto.
Qed.

Lemma filter_none (l : list A) : Forall (λ y, ¬ P y) l → filter P l = [].
Proof.
  induction 1 as [|y l Hy _ IH]; [done|]. by rewrite filter_cons_False.
Qed.

(* replacing, at the place [list_find] gives, a row by another that matches *)
Lemma insert_found (l : list A) i x x' :
  list_find P l = Some (i, x) → P x' →
  head (filter P (<[i := x']> l)) = Some x'
  ∧ filter (λ y, ¬ P y) (<[i := x']> l) = filter (λ y, ¬ P y) l
  ∧ ∀ Q : A → Prop, Forall Q l → Q x' → Forall Q (<[i := x']> l).
Proof.
  intros (l1 & l2 & -> & -> & Hl1 & Hx)%list_find_split Hx'.
  rewrite insert_app_r_alt, Nat.sub_diag by lia. cbn [insert list_insert].
  split; [|split].
  - by rewrite filter_app, filter_none, filter_cons_True.
  - rewrite !filter_app. f_equal. rewrite !filter_cons_False; [done|tauto..].
  - intros Q HQ Hq. apply Forall_app in HQ as [? HQ].
    apply Forall_cons in HQ as [_ ?]. apply Forall_app. split; [done|].
    by apply Forall_cons.
Qed.

Lemma append_not_found (l : list A) x' :
  list_find P l = None → P x' →
  head (filter P (l ++ [x'])) = Some x'
  ∧ filter (λ y, ¬ P y) (l ++ [x']) = filter (λ y, ¬ P y) l.
Proof.
  intros Hl%list_find_None Hx'. split.
  - by rewrite filter_app, filter_none, filter_cons_True.
  - rewrite filter_app, filter_cons_False by tauto. apply app_nil_r.
Qed.

(* rows selected by [Q] are among those [P] does not select *)
Lemma filter_other (Q : A → Prop) `{!∀ x, Decision (Q x)} (l l' : list A) :
  (∀ y, Q y → ¬ P y) →
  filter (λ y, ¬ P y) l' = filter (λ y, ¬ P y) l →
  filter Q l' = filter Q l.
Proof.
  intros HQ E.
  assert (∀ k : list A, filter Q k = filter Q (filter (λ y, ¬ P y) k)) as Hk.
  { intros k. induction k as [|y k IH]; [done|].
    rewrite (filter_cons (λ y, ¬ P y)), (filter_cons Q).
    destruct (decide (Q y)) as [Hy|Hy].
    - rewrite decide_True by auto. rewrite filter_cons_True by done. by f_equal.
    - case_decide; [by rewrite filter_cons_False|done]. }
  by rewrite (Hk l'), (Hk l), E.
Qed.
End Rows.

Section AddInvestment.
Context {num : Type} `{Arith num}.
Local Open Scope num_scope.

Lemma position_head (w : world num) u a :
  position w u a = inv_shares <$> head (filter (holds u a) (investments w)).
Proof.
  unfold position. rewrite <- list_find_head.
  by destruct (list_find _ _) as [[]|].
Qed.

Lemma position_other (w w' : world num) u a u' a' :
  (u', a') ≠ (u, a) →
  filter (λ r, ¬ holds u a r) (investments w')
    = filter (λ r, ¬ holds u a r) (investments w) →
  position w' u' a' = position w u' a'.
Proof.
  intros Hne E. rewrite !position_head. f_equal. f_equal.
  apply (filter_other (holds u a)); [|done].
  intros r [<- <-] [<- <-]. done.
Qed.

Lemma add_investment_spec (w : world num) u a shares :
  let w' := add_investment w u a shares in
  position w' u a =
    Some (match position w u a with Some old => old + shares | None => shares end)
  ∧ filter (λ r, ¬ holds u a r) (investments w')
      = filter (λ r, ¬ holds u a r) (investments w)
  ∧ (∀ Q : inv_row num → Prop,
       Forall Q (investments w) →
       (∀ r, Q r → Q (mk_inv (inv_user r) (inv_asset r) (inv_shares r + shares))) →
       Q (mk_inv u a shares) → Forall Q (investments w'))
  ∧ balances w' = balances w ∧ users w' = users w
  ∧ prices w' = prices w ∧ asset_prices w' = asset_prices w.
Proof.
  intros w'. subst w'. rewrite !position_head. unfold add_investment.
  destruct (list_find (holds u a) (investments w)) as [[i r]|] eqn:Ef; simpl.
  - pose proof (list_find_split _ _ _ _ Ef) as (l1 & l2 & El & _ & Hl1 & Hr).
    destruct (insert_found (holds u a) (investments w) i r
                (mk_inv (inv_user r) (inv_asset r) (inv_shares r + shares)) Ef Hr)
      as (Hh & Hf & HQ).
    rewrite Hh. split; [|split; [done|]].
    + rewrite El, filter_app, filter_none, filter_cons_True by done. done.
    + split; [|done]. intros Q Hall Hstep _. apply HQ; [done|]. apply Hstep.
      rewrite El in Hall. apply Forall_app in Hall as [_ Hall].
      by apply Forall_cons in Hall as [? _].
  - destruct (append_not_found (holds u a) (investments w) (mk_inv u a shares) Ef)
      as (Hh & Hf); [done|].
    rewrite Hh. apply list_find_None in Ef.
    rewrite (filter_none _ _ Ef). split; [done|]. split; [done|].
    split; [|done]. intros Q Hall _ Hnew. apply Forall_app. split; [done|].
    by apply Forall_cons.
Qed.
End AddInvestment.

(** ** Exact amounts *)

Ltac to_Q :=
  unfold Qclt, Qcle, Qcplus, Qcopp, Qcminus in *; simpl in *;
  rewrite ?Qred_correct in *.

Section ExactArith.
Local Open Scope Qc_scope.

Lemma Qcltb_true (x y : Qc) : Qcltb x y = true ↔ x < y.
Proof.
  unfold Qcltb. rewrite Qclt_alt. destruct (x ?= y); split; congruence.
Qed.

Lemma Qcltb_false (x y : Qc) : Qcltb x y = false ↔ y ≤ x.
Proof.
  rewrite <- not_true_iff_false, Qcltb_true. split.
  - apply Qcnot_lt_le.
  - apply Qcle_not_lt.
Qed.

Lemma eps_order : Q2Qc 0 ≤ Q2Qc 1e-9 ∧ Q2Qc 1e-9 ≤ Q2Qc 1e-8.
Proof. split; vm_compute; discriminate. Qed.

(* a debit that passes the funds check of the routes is accepted *)
Lemma debit_after_check (b u : Qc) :
  Qcltb (b + Q2Qc 1e-9) u = false → Qcltb (b + - u) (- Q2Qc 1e-8) = false.
Proof.
  rewrite !Qcltb_false. destruct eps_order as [H0 H1]. revert H0 H1.
  generalize (Q2Qc 1e-9) (Q2Qc 1e-8). intros e9 e8 H0 H1 Hu. to_Q. lra.
Qed.

(* a credit of a positive payout on an accepted balance is accepted *)
Lemma credit_accepted (x s : Qc) :
  Qcltb x (- Q2Qc 1e-8) = false → 0 < s →
  Qcltb (x + s * Q2Qc 2) (- Q2Qc 1e-8) = false.
Proof.
  rewrite !Qcltb_false. intros Hx Hs.
  assert (0 ≤ s * Q2Qc 2) as Hp.
  { apply Qcmult_nonneg_nonneg; [by apply Qclt_le_weak | vm_compute; discriminate]. }
  revert Hx Hp. generalize (s * Q2Qc 2) (Q2Qc 1e-8). intros p e8 Hx Hp. to_Q. lra.
Qed.

Lemma credit_nonneg (b x e : Qc) : - e ≤ b → 0 ≤ x → - e ≤ b + x.
Proof. intros Hb Hx. to_Q. lra. Qed.

Lemma add_nonneg (x y : Qc) : 0 ≤ x → 0 ≤ y → 0 ≤ x + y.
Proof. intros Hx Hy. to_Q. lra. Qed.

Lemma div_rate_nonneg (x : Qc) : 0 ≤ x → 0 ≤ x / Q2Qc 50.23.
Proof.
  intros Hx. unfold Qcdiv. apply Qcmult_nonneg_nonneg; [done|].
  vm_compute. discriminate.
Qed.
End ExactArith.

(** ** Binary64: rounding and order *)

(** The operations of the processor are specified by [SFadd], [SFmul],
    [SFdiv] and [SFltb] of the Standard Library, on mantissas and
    exponents.  The facts below are read off these definitions: the sign of
    a result, that rounding does not cross a float, and that it goes to the
    nearest float. *)

Section BinaryRounding.
Local Open Scope Z_scope.

Lemma digits2_size (p : positive) : digits2_pos p = Pos.size p.
Proof. induction p; cbn; congruence. Qed.

Lemma digits2_upper (p : positive) : Zpos p < 2 ^ Zpos (digits2_pos p).
Proof.
  rewrite digits2_size. pose proof (Pos.size_gt p) as Hs.
  apply Pos2Z.pos_lt_pos in Hs. by rewrite Pos2Z.inj_pow in Hs.
Qed.

Lemma digits2_lower (p : positive) : 2 ^ (Zpos (digits2_pos p) - 1) ≤ Zpos p.
Proof.
  rewrite digits2_size. pose proof (Pos.size_le p) as Hs.
  apply Pos2Z.pos_le_pos in Hs. rewrite Pos2Z.inj_pow in Hs.
  replace (Zpos (Pos.size p)) with (Z.succ (Zpos (Pos.size p) - 1)) in Hs by lia.
  rewrite Z.pow_succ_r in Hs by lia. lia.
Qed.

Lemma Zdigits2_bound (m n : Z) : 0 ≤ n → 0 ≤ m < 2 ^ n → Zdigits2 m ≤ n.
Proof.
  intros Hn [H0 Hm]. destruct m as [|p|p]; cbn; [done| |lia].
  pose proof (digits2_lower p) as Hl.
  destruct (Z_le_gt_dec (Zpos (digits2_pos p)) n) as [|Hgt]; [done|].
  assert (2 ^ n ≤ 2 ^ (Zpos (digits2_pos p) - 1)) by (apply Z.pow_le_mono_r; lia).
  lia.
Qed.

Lemma fexp_mono (a b : Z) : a ≤ b → fexp prec emax a ≤ fexp prec emax b.
Proof. unfold SpecFloat.fexp. lia. Qed.

(* a mantissa at exponent [e] that stays under the float [X * 2^eX] has no
   more digits than that float *)
Lemma digits_under (m e : Z) (X : positive) (eX : Z) :
  e ≤ eX → 0 ≤ m ≤ Zpos X * 2 ^ (eX - e) →
  Zdigits2 m + e ≤ Zpos (digits2_pos X) + eX.
Proof.
  intros He [H0 Hm].
  enough (Zdigits2 m ≤ Zpos (digits2_pos X) + (eX - e)) by lia.
  apply Zdigits2_bound; [lia|]. split; [done|].
  rewrite Z.pow_add_r by lia.
  pose proof (digits2_upper X). 
  assert (0 < 2 ^ (eX - e)) by (apply Z.pow_pos_nonneg; lia). nia.
Qed.

Lemma shr_1_div (mrs : shr_record) :
  0 ≤ shr_m mrs → shr_m (shr_1 mrs) = shr_m mrs / 2.
Proof.
  destruct mrs as [m r s]. cbn [shr_m]. intros Hm.
  destruct m as [|[p|p|]|p]; cbn [shr_1 shr_m]; try lia; try done.
  - rewrite Pos2Z.inj_xI. apply Z.div_unique with 1; lia.
  - rewrite Pos2Z.inj_xO. apply Z.div_unique with 0; lia.
Qed.

Lemma iter_pos_shift {A : Type} (f : A → A) (P : Z → A → Prop) :
  (∀ j x, 0 ≤ j → P j x → P (j + 1) (f x)) →
  ∀ n j x, 0 ≤ j → P j x → P (j + Zpos n) (SpecFloat.iter_pos f n x).
Proof.
  intros Hf. induction n as [n IH|n IH|]; intros j x Hj Hx; cbn [SpecFloat.iter_pos].
  - replace (j + Zpos n~1) with (j + 1 + Zpos n + Zpos n) by lia.
    apply IH; [lia|]. apply IH; [lia|]. by apply Hf.
  - replace (j + Zpos n~0) with (j + Zpos n + Zpos n) by lia.
    apply IH; [lia|]. by apply IH.
  - by apply Hf.
Qed.

Lemma shr_iter_div (mrs : shr_record) (k : positive) :
  0 ≤ shr_m mrs →
  shr_m (SpecFloat.iter_pos shr_1 k mrs) = shr_m mrs / 2 ^ Zpos k.
Proof.
  intros Hm.
  pose (P := λ (j : Z) (x : shr_record), shr_m x = shr_m mrs / 2 ^ j).
  change (P (Zpos k) (SpecFloat.iter_pos shr_1 k mrs)).
  replace (Zpos k) with (0 + Zpos k) by lia.
  apply iter_pos_shift; [|done|unfold P; by rewrite Z.div_1_r].
  intros j x Hj Hx. unfold P in *.
  rewrite shr_1_div; [|rewrite Hx; apply Z.div_pos; [done|apply Z.pow_pos_nonneg; lia]].
  rewrite Hx, Z.div_div, Z.pow_add_r by (try apply Z.pow_pos_nonneg; lia).
  done.
Qed.

Lemma shr_m_of_loc (m : Z) (l : location) : shr_m (shr_record_of_loc m l) = m.
Proof. by destruct l as [|[]]. Qed.

Lemma shr_fexp_div (m e : Z) (l : location) :
  0 ≤ m →
  let r := shr_fexp prec emax m e l in
  r.2 = Z.max e (fexp prec emax (Zdigits2 m + e))
  ∧ shr_m r.1 = m / 2 ^ (r.2 - e).
Proof.
  intros Hm. unfold shr_fexp, shr.
  destruct (fexp prec emax (Zdigits2 m + e) - e) as [|k|k] eqn:Ek; cbn [fst snd].
  - rewrite shr_m_of_loc. split; [lia|].
    by rewrite Z.sub_diag, Z.div_1_r.
  - split; [lia|]. rewrite shr_iter_div by (by rewrite shr_m_of_loc).
    rewrite shr_m_of_loc. f_equal. f_equal. lia.
  - rewrite shr_m_of_loc. split; [lia|].
    by rewrite Z.sub_diag, Z.div_1_r.
Qed.

Lemma round_nearest_even_bound (m : Z) (l : location) :
  m ≤ round_nearest_even m l ≤ m + 1.
Proof. destruct l as [|[]]; cbn; try destruct (Z.even m); lia. Qed.

(* rounding a negative number above [-(X * 2^eX)] does not go below it *)
Lemma round_aux_neg_bound (m e : Z) (l : location) (X : positive) (eX : Z) :
  bounded prec emax X eX = true →
  0 ≤ m → e ≤ eX → m < Zpos X * 2 ^ (eX - e) →
  SFltb (binary_round_aux prec emax true m e l) (S754_finite true X eX) = false.
Proof.
  intros [Hcan Hmax]%andb_prop Hm He Hlt.
  apply Z.eqb_eq in Hcan. apply Z.leb_le in Hmax.
  unfold binary_round_aux.
  destruct (shr_fexp_div m e l Hm) as [He1 Hm1].
  destruct (shr_fexp prec emax m e l) as [mrs1 e1]. cbn [fst snd] in He1, Hm1.
  assert (e1 ≤ eX) as He1X.
  { rewrite He1. apply Z.max_lub; [done|]. rewrite <- Hcan.
    apply fexp_mono, digits_under; lia. }
  assert (e ≤ e1) as Hee1 by lia.
  assert (0 ≤ shr_m mrs1 < Zpos X * 2 ^ (eX - e1)) as [Hm1a Hm1b].
  { rewrite Hm1. assert (0 < 2 ^ (e1 - e)) by (apply Z.pow_pos_nonneg; lia).
    split; [by apply Z.div_pos|]. apply Z.div_lt_upper_bound; [done|].
    replace (eX - e) with ((e1 - e) + (eX - e1)) in Hlt by lia.
    rewrite Z.pow_add_r in Hlt by lia. lia. }
  pose proof (round_nearest_even_bound (shr_m mrs1) (loc_of_shr_record mrs1)) as Hr.
  set (m2 := round_nearest_even (shr_m mrs1) (loc_of_shr_record mrs1)) in *.
  destruct (shr_fexp_div m2 e1 loc_Exact) as [He2 Hm2]; [lia|].
  destruct (shr_fexp prec emax m2 e1 loc_Exact) as [mrs2 e2]. cbn [fst snd] in He2, Hm2.
  assert (e2 ≤ eX) as He2X.
  { rewrite He2. apply Z.max_lub; [done|]. rewrite <- Hcan.
    apply fexp_mono, digits_under; lia. }
  assert (e1 ≤ e2) as He12 by lia.
  assert (shr_m mrs2 ≤ Zpos X * 2 ^ (eX - e2)) as Hm2b.
  { rewrite Hm2. assert (0 < 2 ^ (e2 - e1)) by (apply Z.pow_pos_nonneg; lia).
    apply Z.div_le_upper_bound; [done|].
    replace (eX - e1) with ((e2 - e1) + (eX - e2)) in Hm1b by lia.
    rewrite Z.pow_add_r in Hm1b by lia. lia. }
  destruct (shr_m mrs2) as [|p|p]; [done| |done].
  rewrite (proj2 (Z.leb_le _ _)) by lia.
  unfold SFltb, SFcompare. destruct (Z.compare_spec e2 eX) as [->| |]; [|done|lia].
  rewrite Z.sub_diag, Z.mul_1_r in Hm2b.
  change (Pos.compare_cont Eq p X) with (Pos.compare p X).
  destruct (Pos.compare_spec p X); cbn; [done|done|lia].
Qed.

Lemma pos_iter_xO (m d : positive) : Zpos (Pos.iter xO m d) = Zpos m * 2 ^ Zpos d.
Proof.
  revert m. induction d as [|d IH] using Pos.peano_ind; intros m.
  - cbn. lia.
  - rewrite Pos.iter_succ, Pos2Z.inj_xO, IH, Pos2Z.inj_succ, Z.pow_succ_r by lia. lia.
Qed.

(* [shl_align] towards a lower exponent keeps the value *)
Lemma shl_align_value (m : positive) (e e' : Z) :
  let r := shl_align m e e' in
  r.2 = Z.min e e' ∧ Zpos r.1 = Zpos m * 2 ^ (e - r.2).
Proof.
  unfold shl_align. destruct (e' - e) as [|d|d] eqn:Ed; cbn [fst snd].
  - split; [lia|]. rewrite Z.sub_diag. lia.
  - split; [lia|]. rewrite Z.sub_diag. lia.
  - split; [lia|]. rewrite pos_iter_xO. f_equal. f_equal. lia.
Qed.

Lemma digits2_shl (m : positive) (e e' : Z) :
  Zpos (digits2_pos (shl_align m e e').1) + (shl_align m e e').2
  = Zpos (digits2_pos m) + e.
Proof.
  unfold shl_align. destruct (e' - e) as [|d|d] eqn:Ed; cbn [fst snd]; try done.
  assert (∀ d m, Zpos (digits2_pos (Pos.iter xO m d)) = Zpos (digits2_pos m) + Zpos d) as Hd.
  { clear. intros d. induction d as [|d IH] using Pos.peano_ind; intros m.
    - cbn. lia.
    - rewrite Pos.iter_succ. cbn [digits2_pos]. rewrite Pos2Z.inj_succ, IH. lia. }
  rewrite Hd. lia.
Qed.

Lemma round_neg_bound (m : positive) (e : Z) (X : positive) (eX : Z) :
  bounded prec emax X eX = true →
  e ≤ eX → Zpos m < Zpos X * 2 ^ (eX - e) →
  SFltb (binary_round prec emax true m e) (S754_finite true X eX) = false.
Proof.
  intros Hb He Hlt. unfold binary_round.
  destruct (shl_align_value m e (fexp prec emax (Zpos (digits2_pos m) + e))) as [H2 H1].
  destruct (shl_align m e _) as [mz ez]. cbn [fst snd] in H1, H2.
  apply round_aux_neg_bound; [done|lia|lia|].
  rewrite H1. assert (0 < 2 ^ (e - ez)) by (apply Z.pow_pos_nonneg; lia).
  replace (eX - ez) with ((eX - e) + (e - ez)) by lia.
  rewrite Z.pow_add_r by lia. nia.
Qed.

End BinaryRounding.

Section Signs.
Local Open Scope Z_scope.

Lemma round_aux_nonneg (m e : Z) (l : location) :
  sf_nonneg (binary_round_aux prec emax false m e l) = true.
Proof.
  unfold binary_round_aux.
  destruct (shr_fexp prec emax m e l) as [mrs1 e1].
  destruct (shr_fexp prec emax _ e1 loc_Exact) as [mrs2 e2].
  destruct (shr_m mrs2); [done| |done]. by destruct (e2 <=? emax - prec).
Qed.

Lemma round_nonneg (m : positive) (e : Z) :
  sf_nonneg (binary_round prec emax false m e) = true.
Proof.
  unfold binary_round. destruct (shl_align m e _). apply round_aux_nonneg.
Qed.

Lemma SFadd_nonneg (x y : spec_float) :
  sf_nonneg x = true → sf_nonneg y = true → sf_nonneg (SFadd prec emax x y) = true.
Proof.
  destruct x as [[]|[]| |[] mx ex], y as [[]|[]| |[] my ey]; try done.
  intros _ _. unfold SFadd, binary_normalize, cond_Zopp. cbn [Z.add]. apply round_nonneg.
Qed.

Lemma SFmul_nonneg (x y : spec_float) :
  sf_nonneg x = true → sf_nonneg y = true → sf_nonneg (SFmul prec emax x y) = true.
Proof.
  destruct x as [[]|[]| |[] mx ex], y as [[]|[]| |[] my ey]; try done.
  intros _ _. apply round_aux_nonneg.
Qed.

Lemma SFdiv_nonneg (x : spec_float) (my : positive) (ey : Z) :
  sf_nonneg x = true →
  sf_nonneg (SFdiv prec emax x (S754_finite false my ey)) = true.
Proof.
  destruct x as [[]|[]| |[] mx ex]; try done.
  intros _. unfold SFdiv. destruct (SFdiv_core_binary _ _ _ _ _ _) as [[mz ez] lz].
  apply round_aux_nonneg.
Qed.

Lemma nonneg_not_below (r : spec_float) (C : positive) (eC : Z) :
  sf_nonneg r = true → SFltb r (S754_finite true C eC) = false.
Proof. by destruct r as [[]|[]| |[] p e]. Qed.

Lemma not_below_trans (r : spec_float) (X : positive) (eX : Z) (C : positive) (eC : Z) :
  SFltb r (S754_finite true X eX) = false →
  SFltb (S754_finite true X eX) (S754_finite true C eC) = false →
  SFltb r (S754_finite true C eC) = false.
Proof.
  destruct r as [[]|[]| |[] p e]; try done.
  unfold SFltb, SFcompare.
  change (Pos.compare_cont Eq) with Pos.compare.
  destruct (Z.compare_spec e eX), (Z.compare_spec eX eC), (Z.compare_spec e eC);
    subst; try done; try lia.
  destruct (Pos.compare_spec p X), (Pos.compare_spec X C), (Pos.compare_spec p C);
    subst; try done; try lia.
Qed.

(* a credit that is not negative keeps an amount that is not below [c]
   from going below [c] *)
Lemma SFadd_not_below (x y : spec_float) (C : positive) (eC : Z) :
  valid_binary x = true →
  SFltb x (S754_finite true C eC) = false →
  sf_nonneg y = true →
  SFltb (SFadd prec emax x y) (S754_finite true C eC) = false.
Proof.
  intros Hv Hx Hy.
  destruct (sf_nonneg x) eqn:Ex.
  { by apply nonneg_not_below, SFadd_nonneg. }
  destruct x as [[]|[]| |[] mx ex]; try done.
  destruct y as [[]|[]| |[] my ey]; try done.
  unfold SFadd, binary_normalize, cond_Zopp.
  destruct (shl_align_value mx ex (Z.min ex ey)) as [Hx2 Hx1].
  destruct (_ + _) as [|q|q] eqn:Eq; [done| |].
  { apply nonneg_not_below, round_nonneg. }
  apply not_below_trans with mx ex; [|done].
  apply round_neg_bound; [done|lia|].
  rewrite Hx2 in Hx1.
  replace (Z.min ex (Z.min ex ey)) with (Z.min ex ey) in Hx1 by lia.
  rewrite <- Hx1. lia.
Qed.
End Signs.

Section Nearest.
Local Open Scope Z_scope.

Lemma shr_1_halves (x : shr_record) :
  0 ≤ shr_m x →
  ∃ h β, shr_m x = 2 * h + Z.b2z β ∧ 0 ≤ h
    ∧ shr_1 x = Build_shr_record h β (shr_r x || shr_s x).
Proof.
  destruct x as [mm r s]. cbn [shr_m shr_r shr_s]. intros Hm.
  destruct mm as [|[q|q|]|q]; cbn [shr_1].
  - exists 0, false. by repeat split.
  - exists (Zpos q), true. rewrite Pos2Z.inj_xI. repeat split; cbn [Z.b2z]; lia.
  - exists (Zpos q), false. rewrite Pos2Z.inj_xO. repeat split; cbn [Z.b2z]; lia.
  - exists 0, true. by repeat split.
  - lia.
Qed.

(* what the round and sticky bits record after [j] shifts of [m] *)
Lemma shr_1_loc (m j : Z) (x : shr_record) :
  0 ≤ j →
  (0 ≤ shr_m x
   ∧ 0 ≤ m - shr_m x * 2 ^ j < 2 ^ j
   ∧ match shr_r x, shr_s x with
     | false, false => m - shr_m x * 2 ^ j = 0
     | false, true => 0 < 2 * (m - shr_m x * 2 ^ j) < 2 ^ j
     | true, false => 2 * (m - shr_m x * 2 ^ j) = 2 ^ j
     | true, true => 2 ^ j < 2 * (m - shr_m x * 2 ^ j)
     end) →
  (0 ≤ shr_m (shr_1 x)
   ∧ 0 ≤ m - shr_m (shr_1 x) * 2 ^ (j + 1) < 2 ^ (j + 1)
   ∧ match shr_r (shr_1 x), shr_s (shr_1 x) with
     | false, false => m - shr_m (shr_1 x) * 2 ^ (j + 1) = 0
     | false, true => 0 < 2 * (m - shr_m (shr_1 x) * 2 ^ (j + 1)) < 2 ^ (j + 1)
     | true, false => 2 * (m - shr_m (shr_1 x) * 2 ^ (j + 1)) = 2 ^ (j + 1)
     | true, true => 2 ^ (j + 1) < 2 * (m - shr_m (shr_1 x) * 2 ^ (j + 1))
     end).
Proof.
  intros Hj (Hm & Hρ & Hc).
  destruct (shr_1_halves x Hm) as (h & β & Hx & Hh & ->).
  cbn [shr_m shr_r shr_s]. rewrite Hx in Hρ, Hc.
  rewrite Z.pow_add_r, Z.pow_1_r by lia.
  assert (0 < 2 ^ j) as Hp by (apply Z.pow_pos_nonneg; lia).
  revert Hp Hρ Hc. generalize (2 ^ j). intros p Hp.
  replace ((2 * h + Z.b2z β) * p) with (2 * (h * p) + Z.b2z β * p) by ring.
  replace (h * (p * 2)) with (2 * (h * p)) by ring.
  generalize (h * p). intros t Hρ Hc.
  split; [done|].
  destruct β, (shr_r x), (shr_s x); cbn [Z.b2z orb] in *; lia.
Qed.
Lemma shr_iter_loc (m : Z) (k : positive) :
  0 ≤ m →
  let r := SpecFloat.iter_pos shr_1 k (Build_shr_record m false false) in
  shr_m r = m / 2 ^ Zpos k
  ∧ match loc_of_shr_record r with
    | loc_Exact => m mod 2 ^ Zpos k = 0
    | loc_Inexact Lt => 0 < 2 * (m mod 2 ^ Zpos k) < 2 ^ Zpos k
    | loc_Inexact Eq => 2 * (m mod 2 ^ Zpos k) = 2 ^ Zpos k
    | loc_Inexact Gt => 2 ^ Zpos k < 2 * (m mod 2 ^ Zpos k)
    end.
Proof.
  intros Hm r.
  pose (P := λ (j : Z) (x : shr_record),
    0 ≤ shr_m x
    ∧ 0 ≤ m - shr_m x * 2 ^ j < 2 ^ j
    ∧ match shr_r x, shr_s x with
      | false, false => m - shr_m x * 2 ^ j = 0
      | false, true => 0 < 2 * (m - shr_m x * 2 ^ j) < 2 ^ j
      | true, false => 2 * (m - shr_m x * 2 ^ j) = 2 ^ j
      | true, true => 2 ^ j < 2 * (m - shr_m x * 2 ^ j)
      end).
  assert (P (0 + Zpos k) r) as (H0 & Hρ & Hc).
  { apply iter_pos_shift; [|done|].
    - intros j x Hj Hx. by apply shr_1_loc.
    - unfold P. cbn [shr_m shr_r shr_s]. rewrite Z.pow_0_r. lia. }
  rewrite Z.add_0_l in Hρ, Hc.
  assert (0 < 2 ^ Zpos k) as Hp by (apply Z.pow_pos_nonneg; lia).
  assert (shr_m r = m / 2 ^ Z.pos k) as Hq.
  { apply Z.div_unique with (m - shr_m r * 2 ^ Z.pos k); lia. }
  assert (m mod 2 ^ Zpos k = m - shr_m r * 2 ^ Z.pos k) as ->.
  { symmetry. apply Z.mod_unique with (shr_m r); lia. }
  split; [done|].
  unfold loc_of_shr_record. by destruct r as [mm [] []].
Qed.

(* the first shift of [binary_round_aux] on an exact mantissa, with the
   rounding to nearest that follows it *)
Lemma shr_round_nearest (m e : Z) :
  0 ≤ m →
  let f := Z.max e (fexp prec emax (Zdigits2 m + e)) in
  let r := shr_fexp prec emax m e loc_Exact in
  let m2 := round_nearest_even (shr_m r.1) (loc_of_shr_record r.1) in
  r.2 = f
  ∧ m / 2 ^ (f - e) ≤ m2 ≤ m / 2 ^ (f - e) + 1
  ∧ (2 * (m mod 2 ^ (f - e)) < 2 ^ (f - e) → m2 = m / 2 ^ (f - e))
  ∧ (2 ^ (f - e) < 2 * (m mod 2 ^ (f - e)) → m2 = m / 2 ^ (f - e) + 1).
Proof.
  intros Hm f r m2. subst r m2. unfold shr_fexp, shr.
  destruct (fexp prec emax (Zdigits2 m + e) - e) as [|k|k] eqn:Ek; cbn [fst snd].
  - assert (f - e = 0) as -> by lia. cbn [shr_record_of_loc loc_of_shr_record shr_m].
    rewrite Z.pow_0_r, Z.div_1_r, Z.mod_1_r. cbn [round_nearest_even]. lia.
  - assert (f - e = Zpos k) as -> by lia.
    cbn [shr_record_of_loc].
    destruct (shr_iter_loc m k Hm) as [Hq Hl]. rewrite Hq.
    split; [lia|].
    destruct (loc_of_shr_record _) as [|[]]; cbn [round_nearest_even];
      try destruct (Z.even _); lia.
  - assert (f - e = 0) as -> by lia. cbn [shr_record_of_loc loc_of_shr_record shr_m].
    rewrite Z.pow_0_r, Z.div_1_r, Z.mod_1_r. cbn [round_nearest_even]. lia.
Qed.
Lemma Zdigits2_pos_upper (m : Z) : 0 ≤ m → m < 2 ^ Zdigits2 m.
Proof.
  destruct m as [|p|p]; [done| |lia]. intros _. apply digits2_upper.
Qed.

Lemma Zdigits2_pos_lower (m : Z) : 0 < m → 2 ^ (Zdigits2 m - 1) ≤ m.
Proof.
  destruct m as [|p|p]; [lia| |lia]. intros _. apply digits2_lower.
Qed.

Lemma Zdigits2_nonneg (m : Z) : 0 ≤ Zdigits2 m.
Proof. by destruct m. Qed.

(* [binary_round_aux] on an exact positive mantissa: the mantissa at the
   working exponent [f], rounded to nearest, then renormalised *)
Lemma round_aux_spec (s : bool) (m e : Z) :
  0 < m → -1074 ≤ e →
  let f := Z.max e (fexp prec emax (Zdigits2 m + e)) in
  ∃ (m2 : Z) (p : positive) (e2 : Z),
    (m / 2 ^ (f - e) ≤ m2 ≤ m / 2 ^ (f - e) + 1)
    ∧ (2 * (m mod 2 ^ (f - e)) < 2 ^ (f - e) → m2 = m / 2 ^ (f - e))
    ∧ (2 ^ (f - e) < 2 * (m mod 2 ^ (f - e)) → m2 = m / 2 ^ (f - e) + 1)
    ∧ Zpos p * 2 ^ (e2 - f) = m2 ∧ f ≤ e2 ≤ f + 1
    ∧ (e2 = f + 1 → m2 = 2 ^ 53)
    ∧ binary_round_aux prec emax s m e loc_Exact
        = if e2 <=? emax - prec then S754_finite s p e2 else S754_infinity s.
Proof.
  intros Hm He f.
  destruct (shr_round_nearest m e) as (Hf & Hm2 & Hlo & Hhi); [lia|].
  fold f in Hf, Hm2, Hlo, Hhi.
  unfold binary_round_aux.
  destruct (shr_fexp prec emax m e loc_Exact) as [mrs1 e1]. cbn [fst snd] in *.
  subst e1.
  set (m2 := round_nearest_even (shr_m mrs1) (loc_of_shr_record mrs1)) in *.
  assert (e ≤ f) as Hef by lia.
  assert (0 < 2 ^ (f - e)) as Hpk by (apply Z.pow_pos_nonneg; lia).
  pose proof (Zdigits2_pos_upper m ltac:(lia)) as Hup.
  pose proof (Zdigits2_pos_lower m Hm) as Hlow.
  assert (1 ≤ Zdigits2 m) as Hdn by (destruct m; cbn; lia).
  assert (Zdigits2 m + e - 53 ≤ f) as Hfd.
  { subst f. unfold SpecFloat.fexp, prec. lia. }
  (* the quotient has at most [prec] digits and is not zero *)
  assert (m / 2 ^ (f - e) < 2 ^ 53) as Hq53.
  { apply Z.div_lt_upper_bound; [done|]. rewrite <- Z.pow_add_r by lia.
    eapply Z.lt_le_trans; [exact Hup|]. apply Z.pow_le_mono_r; lia. }
  assert (1 ≤ m / 2 ^ (f - e)) as Hq1.
  { apply Z.div_le_lower_bound; [done|]. rewrite Z.mul_1_r.
    eapply Z.le_trans; [|exact Hlow]. apply Z.pow_le_mono_r; [lia|].
    subst f. unfold SpecFloat.fexp, SpecFloat.emin, prec, emax. lia. }
  destruct (shr_fexp_div m2 f loc_Exact) as [He2 Hm3]; [lia|].
  destruct (shr_fexp prec emax m2 f loc_Exact) as [mrs2 e2]. cbn [fst snd] in *.
  destruct (Z_lt_le_dec m2 (2 ^ 53)) as [Hlt|Hge].
  - (* no carry *)
    assert (Zdigits2 m2 ≤ 53) as Hd2 by (apply Zdigits2_bound; lia).
    assert (e2 = f) as ->.
    { rewrite He2. unfold SpecFloat.fexp, SpecFloat.emin, prec, emax. lia. }
    rewrite Z.sub_diag, Z.pow_0_r, Z.div_1_r in Hm3. rewrite Hm3.
    destruct m2 as [|p|p] eqn:E2; [lia| |lia].
    exists (Zpos p), p, f. rewrite Z.sub_diag, Z.pow_0_r.
    repeat split; try lia; done.
  - (* the rounding carried into the next binade *)
    assert (m2 = 2 ^ 53) as E2 by lia.
    assert (e2 = f + 1) as ->.
    { rewrite He2, E2. change (Zdigits2 (2 ^ 53)) with 54.
      unfold SpecFloat.fexp, SpecFloat.emin, prec, emax. lia. }
    replace (f + 1 - f) with 1 in Hm3 |- * by lia.
    rewrite E2 in Hm3. change (2 ^ 53 / 2 ^ 1) with (Zpos (2 ^ 52)) in Hm3.
    rewrite Hm3. exists m2, (2 ^ 52)%positive, (f + 1).
    replace (f + 1 - f) with 1 by lia. rewrite E2 in *.
    repeat split; try lia; done.
Qed.
End Nearest.

Section Values.
Local Open Scope Z_scope.

Lemma pow2_split (a b : Z) : 0 ≤ a ≤ b → 2 ^ b = 2 ^ (b - a) * 2 ^ a.
Proof. intros H. rewrite <- Z.pow_add_r by lia. f_equal. lia. Qed.

Lemma pow2_pos (a : Z) : 0 ≤ a → 0 < 2 ^ a.
Proof. intros. by apply Z.pow_pos_nonneg. Qed.

Lemma fexp_floor (d : Z) : -1074 ≤ fexp prec emax d ∧ d - 53 ≤ fexp prec emax d.
Proof. unfold SpecFloat.fexp, SpecFloat.emin, prec, emax. lia. Qed.

(* [binary_round] on a positive mantissa, with values counted in units of
   2^-1074: [T] is the number to round, [G] the gap between neighbouring
   floats at its magnitude *)
Lemma round_spec (s : bool) (q : positive) (e : Z) :
  -1074 ≤ e →
  let F := fexp prec emax (Zpos (digits2_pos q) + e) in
  let T := Zpos q * 2 ^ (e + 1074) in
  let G := 2 ^ (F + 1074) in
  ∃ (m2 : Z) (p : positive) (e2 : Z),
    (T / G ≤ m2 ≤ T / G + 1)
    ∧ (2 * (T mod G) < G → m2 = T / G)
    ∧ (G < 2 * (T mod G) → m2 = T / G + 1)
    ∧ Zpos p * 2 ^ (e2 + 1074) = m2 * G ∧ F ≤ e2 ≤ F + 1
    ∧ (e2 = F + 1 → m2 = 2 ^ 53)
    ∧ binary_round prec emax s q e
        = if e2 <=? emax - prec then S754_finite s p e2 else S754_infinity s.
Proof.
  intros He F T G. unfold binary_round. fold F.
  destruct (shl_align_value q e F) as [Hz2 Hz1].
  pose proof (digits2_shl q e F) as Hd.
  destruct (shl_align q e F) as [mz ez]. cbn [fst snd] in Hz1, Hz2, Hd.
  destruct (fexp_floor (Zpos (digits2_pos q) + e)) as [HF _]. fold F in HF.
  destruct (round_aux_spec s (Zpos mz) ez) as (m2 & p & e2 & Hm2 & Hlo & Hhi & Hp & He2 & Hc & Hr);
    [done|lia|].
  cbn [Zdigits2] in *. rewrite Hd in *. fold F in Hm2, Hlo, Hhi, Hp, He2, Hc.
  replace (Z.max ez F) with F in * by lia.
  assert (0 < 2 ^ (F - ez)) as Hk by (apply pow2_pos; lia).
  assert (0 < 2 ^ (ez + 1074)) as Hu by (apply pow2_pos; lia).
  assert (T = Zpos mz * 2 ^ (ez + 1074)) as HT.
  { subst T. rewrite Hz1, <- Z.mul_assoc, <- Z.pow_add_r by lia. do 2 f_equal. lia. }
  assert (G = 2 ^ (F - ez) * 2 ^ (ez + 1074)) as HG.
  { subst G. rewrite <- Z.pow_add_r by lia. f_equal. lia. }
  assert (T / G = Zpos mz / 2 ^ (F - ez)) as Hq.
  { rewrite HT, HG. apply Z.div_mul_cancel_r; lia. }
  assert (T mod G = Zpos mz mod 2 ^ (F - ez) * 2 ^ (ez + 1074)) as Hmod.
  { rewrite HT, HG. apply Z.mul_mod_distr_r; lia. }
  exists m2, p, e2. rewrite Hq, Hmod, HG.
  split; [done|]. split; [intros H; apply Hlo; nia|].
  split; [intros H; apply Hhi; nia|].
  split; [|done].
  assert (2 ^ (e2 + 1074) = 2 ^ (e2 - F) * 2 ^ (F - ez) * 2 ^ (ez + 1074)) as ->.
  { rewrite <- !Z.pow_add_r by lia. f_equal. lia. }
  rewrite <- Hp. ring.
Qed.

Lemma bounded_facts (m : positive) (e : Z) :
  bounded prec emax m e = true →
  -1074 ≤ e ≤ 971
  ∧ fexp prec emax (Zpos (digits2_pos m) + e) = e
  ∧ Zpos m < 2 ^ 53
  ∧ (-1074 < e → 2 ^ 52 ≤ Zpos m).
Proof.
  intros [Hcan Hmax]%andb_prop. apply Z.eqb_eq in Hcan. apply Z.leb_le in Hmax.
  pose proof (digits2_upper m) as Hup. pose proof (digits2_lower m) as Hlow.
  destruct (fexp_floor (Zpos (digits2_pos m) + e)) as [H1 H2].
  rewrite Hcan in H1, H2. change (emax - prec) with 971 in Hmax.
  split; [lia|]. split; [done|]. split.
  - eapply Z.lt_le_trans; [exact Hup|]. apply Z.pow_le_mono_r; lia.
  - intros He. assert (Zpos (digits2_pos m) = 53) as Hd.
    { revert Hcan. unfold SpecFloat.fexp, SpecFloat.emin, prec, emax. lia. }
    by rewrite Hd in Hlow.
Qed.

(* the order of two floats of the same sign is the order of their values *)
Lemma finite_order (m1 : positive) (e1 : Z) (m2 : positive) (e2 : Z) :
  bounded prec emax m1 e1 = true → bounded prec emax m2 e2 = true →
  e1 < e2 → Zpos m1 * 2 ^ (e1 + 1074) < Zpos m2 * 2 ^ (e2 + 1074).
Proof.
  intros (He1 & _ & Hm1 & _)%bounded_facts (He2 & _ & _ & Hm2)%bounded_facts Hlt.
  specialize (Hm2 ltac:(lia)).
  rewrite (pow2_split (e1 + 1074) (e2 + 1074)) by lia.
  assert (0 < 2 ^ (e1 + 1074)) by (apply pow2_pos; lia).
  assert (2 ≤ 2 ^ (e2 + 1074 - (e1 + 1074))).
  { change 2 with (2 ^ 1) at 1. apply Z.pow_le_mono_r; lia. }
  revert H H0. generalize (2 ^ (e1 + 1074)) (2 ^ (e2 + 1074 - (e1 + 1074))).
  intros P a HP Ha.
  assert (Zpos m1 * P < 2 ^ 53 * P) by (apply Z.mul_lt_mono_pos_r; lia).
  assert (2 ^ 53 ≤ Zpos m2 * a).
  { change (2 ^ 53) with (2 ^ 52 * 2). apply Z.mul_le_mono_nonneg; lia. }
  assert (2 ^ 53 * P ≤ Zpos m2 * a * P) by (apply Z.mul_le_mono_nonneg_r; lia).
  lia.
Qed.

Lemma finite_compare (m1 : positive) (e1 : Z) (m2 : positive) (e2 : Z) :
  bounded prec emax m1 e1 = true → bounded prec emax m2 e2 = true →
  match e1 ?= e2 with
  | Lt => Lt
  | Gt => Gt
  | Eq => Pos.compare_cont Eq m1 m2
  end = (Zpos m1 * 2 ^ (e1 + 1074) ?= Zpos m2 * 2 ^ (e2 + 1074)).
Proof.
  intros Hb1 Hb2. symmetry.
  destruct (Z.compare_spec e1 e2) as [->| |].
  - change (Pos.compare_cont Eq m1 m2) with (Zpos m1 ?= Zpos m2).
    pose proof (bounded_facts _ _ Hb2) as (He & _).
    assert (0 < 2 ^ (e2 + 1074)) by (apply pow2_pos; lia).
    destruct (Z.compare_spec (Zpos m1) (Zpos m2)) as [->| |].
    + apply Z.compare_refl.
    + apply Z.compare_lt_iff. nia.
    + apply Z.compare_gt_iff. nia.
  - apply Z.compare_lt_iff. by apply finite_order.
  - apply Z.compare_gt_iff. by apply finite_order.
Qed.

Lemma SFltb_int (x y : spec_float) :
  valid_binary x = true → valid_binary y = true →
  sf_finite x = true → sf_finite y = true →
  SFltb x y = true ↔ sf_int x < sf_int y.
Proof.
  intros Hx Hy Fx Fy.
  destruct x as [sx|sx| |sx mx ex]; try done;
  destruct y as [sy|sy| |sy my ey]; try done; cbn [sf_int].
  - pose proof (bounded_facts _ _ Hy) as (He & _).
    assert (0 < 2 ^ (ey + 1074)) by (apply pow2_pos; lia).
    assert (0 < Zpos my * 2 ^ (ey + 1074)) by (apply Z.mul_pos_pos; lia).
    unfold SFltb, SFcompare. destruct sy; cbn [cond_Zopp]; split; try done; lia.
  - pose proof (bounded_facts _ _ Hx) as (He & _).
    assert (0 < 2 ^ (ex + 1074)) by (apply pow2_pos; lia).
    assert (0 < Zpos mx * 2 ^ (ex + 1074)) by (apply Z.mul_pos_pos; lia).
    unfold SFltb, SFcompare. destruct sx; cbn [cond_Zopp]; split; try done; lia.
  - pose proof (bounded_facts _ _ Hx) as (Hex & _).
    pose proof (bounded_facts _ _ Hy) as (Hey & _).
    assert (0 < 2 ^ (ex + 1074)) by (apply pow2_pos; lia).
    assert (0 < 2 ^ (ey + 1074)) by (apply pow2_pos; lia).
    assert (0 < Zpos mx * 2 ^ (ex + 1074)) by (apply Z.mul_pos_pos; lia).
    assert (0 < Zpos my * 2 ^ (ey + 1074)) by (apply Z.mul_pos_pos; lia).
    unfold SFltb, SFcompare. cbn [valid_binary] in Hx, Hy.
    destruct sx, sy; cbn [cond_Zopp].
    + pose proof (finite_compare mx ex my ey Hx Hy) as Hc.
      replace (match ex ?= ey with
               | Lt => Gt
               | Gt => Lt
               | Eq => CompOpp (Pos.compare_cont Eq mx my)
               end)
        with (CompOpp (Zpos mx * 2 ^ (ex + 1074) ?= Zpos my * 2 ^ (ey + 1074)))
        by (rewrite <- Hc; by destruct (ex ?= ey)).
      destruct (Z.compare_spec (Zpos mx * 2 ^ (ex + 1074)) (Zpos my * 2 ^ (ey + 1074)));
        cbn [CompOpp]; split; intros; first [done | lia].
    + split; intros; first [done | lia].
    + split; intros; first [done | lia].
    + rewrite (finite_compare mx ex my ey Hx Hy).
      destruct (Z.compare_spec (Zpos mx * 2 ^ (ex + 1074)) (Zpos my * 2 ^ (ey + 1074)));
        split; intros; first [done | lia].
Qed.
End Values.

Section Sums.
Local Open Scope Z_scope.

(* a number below the float [X * 2^eX] has no more digits than it *)
Lemma digits_below (q : positive) (e : Z) (X : positive) (eX : Z) :
  -1074 ≤ e → -1074 ≤ eX →
  Zpos q * 2 ^ (e + 1074) < Zpos X * 2 ^ (eX + 1074) →
  Zpos (digits2_pos q) + e ≤ Zpos (digits2_pos X) + eX.
Proof.
  intros He HeX Hlt.
  pose proof (digits2_lower q) as Hq. pose proof (digits2_upper X) as HX.
  assert (0 < 2 ^ (e + 1074)) as Hpe by (apply pow2_pos; lia).
  assert (0 < 2 ^ (eX + 1074)) as HpX by (apply pow2_pos; lia).
  assert (2 ^ (Zpos (digits2_pos q) - 1 + (e + 1074))
          < 2 ^ (Zpos (digits2_pos X) + (eX + 1074))) as Hpow.
  { rewrite (Z.pow_add_r 2 (Zpos (digits2_pos q) - 1)) by lia.
    rewrite (Z.pow_add_r 2 (Zpos (digits2_pos X))) by lia.
    revert Hq HX Hlt Hpe HpX.
    generalize (2 ^ (Zpos (digits2_pos q) - 1)) (2 ^ Zpos (digits2_pos X))
               (2 ^ (e + 1074)) (2 ^ (eX + 1074)).
    intros a b u v Hq HX Hlt Hu Hv.
    assert (a * u ≤ Zpos q * u) by (apply Z.mul_le_mono_nonneg_r; lia).
    assert (Zpos X * v < b * v) by (apply Z.mul_lt_mono_pos_r; lia).
    lia. }
  apply Z.pow_lt_mono_r_iff in Hpow; lia.
Qed.

(* rounding a negative number above the float [-(X * 2^eX)] does not go
   below that float *)
Lemma round_neg_above (q : positive) (e : Z) (X : positive) (eX : Z) :
  bounded prec emax X eX = true →
  -1074 ≤ e →
  Zpos q * 2 ^ (e + 1074) < Zpos X * 2 ^ (eX + 1074) →
  SFltb (binary_round prec emax true q e) (S754_finite true X eX) = false.
Proof.
  intros Hb He Hlt. pose proof (bounded_facts _ _ Hb) as (HeX & Hcan & _).
  pose proof (digits_below q e X eX He ltac:(lia) Hlt) as Hd.
  unfold binary_round.
  set (F := fexp prec emax (Zpos (digits2_pos q) + e)).
  assert (F ≤ eX) as HF by (rewrite <- Hcan; by apply fexp_mono).
  destruct (fexp_floor (Zpos (digits2_pos q) + e)) as [HF0 _]. fold F in HF0.
  destruct (shl_align_value q e F) as [Hz2 Hz1].
  destruct (shl_align q e F) as [mz ez]. cbn [fst snd] in Hz1, Hz2.
  apply round_aux_neg_bound; [done|lia|lia|].
  assert (0 < 2 ^ (ez + 1074)) as Hu by (apply pow2_pos; lia).
  apply (Z.mul_lt_mono_pos_r (2 ^ (ez + 1074))); [done|].
  rewrite Hz1, <- !Z.mul_assoc, <- !Z.pow_add_r by lia.
  replace (e - ez + (ez + 1074)) with (e + 1074) by lia.
  replace (eX - ez + (ez + 1074)) with (eX + 1074) by lia. done.
Qed.

(* the sum of two finite floats is their exact sum, normalised *)
Lemma SFadd_finite (sx : bool) (mx : positive) (ex : Z) (sy : bool) (my : positive) (ey : Z) :
  bounded prec emax mx ex = true → bounded prec emax my ey = true →
  ∃ (Σ ez : Z),
    -1074 ≤ ez ∧ ez ≤ ex ∧ ez ≤ ey
    ∧ Σ * 2 ^ (ez + 1074)
        = sf_int (S754_finite sx mx ex) + sf_int (S754_finite sy my ey)
    ∧ SFadd prec emax (S754_finite sx mx ex) (S754_finite sy my ey)
        = binary_normalize prec emax Σ ez false.
Proof.
  intros (Hex & _)%bounded_facts (Hey & _)%bounded_facts.
  unfold SFadd.
  destruct (shl_align_value mx ex (Z.min ex ey)) as [Hx2 Hx1].
  destruct (shl_align_value my ey (Z.min ex ey)) as [Hy2 Hy1].
  eexists _, (Z.min ex ey). split; [lia|]. split; [lia|]. split; [lia|].
  split; [|reflexivity].
  replace (Z.min ex (Z.min ex ey)) with (Z.min ex ey) in Hx2 by lia.
  replace (Z.min ey (Z.min ex ey)) with (Z.min ex ey) in Hy2 by lia.
  rewrite Hx2 in Hx1. rewrite Hy2 in Hy1.
  assert (∀ e : Z, e - Z.min ex ey + (Z.min ex ey + 1074) = e + 1074) as Hexp by lia.
  assert (Zpos (shl_align mx ex (Z.min ex ey)).1 * 2 ^ (Z.min ex ey + 1074)
          = Zpos mx * 2 ^ (ex + 1074)) as Hvx.
  { rewrite Hx1, <- Z.mul_assoc, <- Z.pow_add_r, Hexp by lia. done. }
  assert (Zpos (shl_align my ey (Z.min ex ey)).1 * 2 ^ (Z.min ex ey + 1074)
          = Zpos my * 2 ^ (ey + 1074)) as Hvy.
  { rewrite Hy1, <- Z.mul_assoc, <- Z.pow_add_r, Hexp by lia. done. }
  rewrite Z.mul_add_distr_r. cbn [sf_int].
  destruct sx, sy; cbn [cond_Zopp]; rewrite ?Z.mul_opp_l, Hvx, Hvy; done.
Qed.

(* a sum of two floats that is above [c] as a number is not below [c] once
   rounded *)
Lemma SFadd_above (x y : spec_float) (C : positive) (eC : Z) :
  valid_binary x = true → valid_binary y = true →
  sf_finite x = true → sf_finite y = true →
  bounded prec emax C eC = true →
  sf_int (S754_finite true C eC) < sf_int x + sf_int y →
  SFltb (SFadd prec emax x y) (S754_finite true C eC) = false.
Proof.
  intros Hx Hy Fx Fy Hc Hlt.
  pose proof (bounded_facts _ _ Hc) as (HeC & _).
  assert (0 < Zpos C * 2 ^ (eC + 1074)) as HC
    by (apply Z.mul_pos_pos; [lia|apply pow2_pos; lia]).
  assert (∀ z, valid_binary z = true → sf_finite z = true →
            sf_int (S754_finite true C eC) < sf_int z →
            SFltb z (S754_finite true C eC) = false) as Hone.
  { intros z Hz Fz Hzc. destruct (SFltb z _) eqn:E; [|done].
    apply SFltb_int in E; [lia|done..]. }
  destruct x as [sx|sx| |sx mx ex]; try done;
  destruct y as [sy|sy| |sy my ey]; try done.
  - by destruct sx, sy.
  - cbn [SFadd]. apply Hone; [done..|]. cbn [sf_int] in *. lia.
  - cbn [SFadd]. apply Hone; [done..|]. cbn [sf_int] in *. lia.
  - destruct (SFadd_finite sx mx ex sy my ey Hx Hy) as (Σ & ez & Hez & _ & _ & HΣ & ->).
    unfold binary_normalize. destruct Σ as [|q|q]; [done| |].
    + apply nonneg_not_below, round_nonneg.
    + apply round_neg_above; [done|lia|].
      rewrite <- HΣ in Hlt. cbn [sf_int cond_Zopp] in Hlt.
      rewrite <- Pos2Z.opp_pos in Hlt. lia.
Qed.
End Sums.

Section Small.
Local Open Scope Z_scope.

Lemma div_mod_parts (T G : Z) :
  0 < G → T = T / G * G + T mod G ∧ 0 ≤ T mod G < G.
Proof.
  intros HG. split; [|by apply Z.mod_pos_bound].
  rewrite Z.mul_comm. apply Z.div_mod. lia.
Qed.

Lemma div_mod_known (T G d ρ : Z) :
  T = d * G + ρ → 0 ≤ ρ < G → T / G = d ∧ T mod G = ρ.
Proof.
  intros HT Hρ. split.
  - symmetry. apply Z.div_unique with ρ; lia.
  - symmetry. apply Z.mod_unique with d; lia.
Qed.

(* the gap at magnitude [F] divides every float of an exponent at least [F] *)
Lemma gap_divides (m : positive) (e F : Z) :
  -1074 ≤ F ≤ e →
  ∃ β, 0 < β ∧ Zpos m * 2 ^ (e + 1074) = β * 2 ^ (F + 1074)
       ∧ β = Zpos m * 2 ^ (e - F).
Proof.
  intros HF. exists (Zpos m * 2 ^ (e - F)).
  assert (0 < 2 ^ (e - F)) by (apply pow2_pos; lia).
  split; [lia|]. split; [|done].
  rewrite <- Z.mul_assoc, <- Z.pow_add_r by lia. do 2 f_equal. lia.
Qed.

(* Adding a small positive float [y] to [b]: the rounded sum is below
   [b + K], for any [K] above [y] plus the gap 2^k, provided [y] is less than
   half the next gap, 2^(k+1).  Below magnitude [k] the rounding error is at
   most the gap; above it, [y] is less than half a gap and the sum rounds
   back to [b]. *)
Lemma SFadd_small (sb : bool) (mb : positive) (eb : Z) (my : positive) (ey : Z)
    (k K : Z) :
  bounded prec emax mb eb = true → bounded prec emax my ey = true →
  -1074 ≤ k ≤ 970 →
  2 * (Zpos my * 2 ^ (ey + 1074)) < 2 ^ (k + 1 + 1074) →
  Zpos my * 2 ^ (ey + 1074) + 2 ^ (k + 1074) < K →
  let r := SFadd prec emax (S754_finite sb mb eb) (S754_finite false my ey) in
  sf_finite r = true ∧ sf_int r < sf_int (S754_finite sb mb eb) + K.
Proof.
  intros Hb Hy Hk H2E HEK r. subst r.
  pose proof (bounded_facts _ _ Hb) as (Heb & Hcanb & Hmb53 & _).
  pose proof (bounded_facts _ _ Hy) as (Hey & _).
  destruct (SFadd_finite sb mb eb false my ey Hb Hy)
    as (Σ & ez & Hez & Hezb & Hezy & HΣ & ->).
  cbn [sf_int] in HΣ |- *. cbn [cond_Zopp] in HΣ.
  assert (0 < 2 ^ (k + 1074)) as Hpk by (apply pow2_pos; lia).
  assert (2 ^ (k + 1 + 1074) = 2 * 2 ^ (k + 1074)) as Hk1.
  { replace (k + 1 + 1074) with (Z.succ (k + 1074)) by lia. apply Z.pow_succ_r. lia. }
  rewrite Hk1 in H2E. clear Hk1.
  assert (0 < Zpos my * 2 ^ (ey + 1074)) as HE
    by (apply Z.mul_pos_pos; [lia|apply pow2_pos; lia]).
  set (E := Zpos my * 2 ^ (ey + 1074)) in *. clearbody E.
  assert (0 < Zpos mb * 2 ^ (eb + 1074)) as HB
    by (apply Z.mul_pos_pos; [lia|apply pow2_pos; lia]).
  unfold binary_normalize. destruct Σ as [|q|q].
  - (* the sum is zero *)
    split; [done|]. cbn [sf_int]. lia.
  - (* the sum is positive *)
    pose proof (round_spec false q ez Hez) as Hrs. cbv zeta in Hrs.
    pose proof (digits2_lower q) as Hql. pose proof (digits2_upper q) as Hqu.
    destruct (fexp_floor (Zpos (digits2_pos q) + ez)) as [HF0 HF1].
    assert (0 < 2 ^ (ez + 1074)) as Hpez by (apply pow2_pos; lia).
    set (F := fexp prec emax (Zpos (digits2_pos q) + ez)) in *.
    set (T := Zpos q * 2 ^ (ez + 1074)) in *.
    assert (0 < 2 ^ (F + 1074)) as HG by (apply pow2_pos; lia).
    destruct Hrs as (m2 & p & e2 & Hm2 & Hlo & Hhi & Hp & He2 & Hc & ->).
    destruct (div_mod_parts T (2 ^ (F + 1074)) HG) as [Hdm Hρ].
    destruct (Z_le_gt_dec F k) as [HFk|HFk].
    + (* a small magnitude: the error is at most the gap *)
      assert (2 ^ (F + 1074) ≤ 2 ^ (k + 1074)) as HGk by (apply Z.pow_le_mono_r; lia).
      rewrite (proj2 (Z.leb_le e2 (emax - prec))) by (change (emax - prec) with 971; lia).
      split; [done|]. cbn [sf_int cond_Zopp]. rewrite Hp.
      assert (m2 * 2 ^ (F + 1074) ≤ (T / 2 ^ (F + 1074) + 1) * 2 ^ (F + 1074))
        by (apply Z.mul_le_mono_nonneg_r; lia).
      destruct sb; cbn [cond_Zopp] in *; lia.
    + (* a large magnitude: the sum rounds back to [b] *)
      assert (2 * 2 ^ (k + 1074) ≤ 2 ^ (F + 1074)) as HGk.
      { rewrite <- (Z.pow_succ_r 2 (k + 1074)) by lia. apply Z.pow_le_mono_r; lia. }
      assert (F = Zpos (digits2_pos q) + ez - 53) as HFn.
      { revert HFk Hk. unfold F, SpecFloat.fexp, SpecFloat.emin, prec, emax. lia. }
      assert (2 ^ 52 * 2 ^ (F + 1074) ≤ T < 2 ^ 53 * 2 ^ (F + 1074)) as [HTl HTu].
      { rewrite <- !Z.pow_add_r by lia.
        replace (52 + (F + 1074)) with (Zpos (digits2_pos q) - 1 + (ez + 1074)) by lia.
        replace (53 + (F + 1074)) with (Zpos (digits2_pos q) + (ez + 1074)) by lia.
        rewrite (Z.pow_add_r 2 (Zpos (digits2_pos q) - 1) (ez + 1074)) by lia.
        rewrite (Z.pow_add_r 2 (Zpos (digits2_pos q)) (ez + 1074)) by lia.
        unfold T. split.
        - apply Z.mul_le_mono_nonneg_r; lia.
        - apply Z.mul_lt_mono_pos_r; lia. }
      destruct sb; cbn [cond_Zopp] in HΣ; [exfalso; fold T in HΣ; lia|].
      fold T in HΣ.
      (* the gap divides [b] *)
      assert (F ≤ eb) as HFeb.
      { destruct (Z_le_gt_dec F eb) as [|Hgt]; [done|exfalso].
        assert (2 ^ (F + 1074) = 2 * (2 ^ (F - eb - 1) * 2 ^ (eb + 1074))) as HGb.
        { rewrite <- Z.pow_add_r, <- Z.pow_succ_r by lia. f_equal. lia. }
        assert (0 < 2 ^ (F - eb - 1)) as Hh by (apply pow2_pos; lia).
        assert (0 < 2 ^ (eb + 1074)) as Hgb by (apply pow2_pos; lia).
        revert HGb Hh Hgb HΣ HTl H2E HGk Hmb53 HE.
        generalize (2 ^ (F + 1074)) (2 ^ (F - eb - 1)) (2 ^ (eb + 1074)) (2 ^ (k + 1074)).
        intros G h gb pk -> Hh Hgb HΣ HTl H2E HGk Hmb53 HE.
        assert (Zpos mb * gb ≤ (2 ^ 53 - 1) * gb) by (apply Z.mul_le_mono_nonneg_r; lia).
        assert (gb ≤ h * gb) by nia.
        nia. }
      destruct (gap_divides mb eb F) as (β & Hβ0 & Hβ & _); [lia|].
      rewrite Hβ in HΣ, HB.
      destruct (div_mod_known T (2 ^ (F + 1074)) β E) as [Hq Hr]; [lia|lia|].
      rewrite Hq, Hr in *.
      assert (m2 = β) as -> by (apply Hlo; lia).
      assert (e2 = F) as ->.
      { destruct (Z.eq_dec e2 F) as [|Hne]; [done|exfalso].
        assert (β = 2 ^ 53) as Hβ53 by (apply Hc; lia). rewrite Hβ53 in HΣ. lia. }
      rewrite (proj2 (Z.leb_le F (emax - prec))) by (change (emax - prec) with 971; lia).
      split; [done|]. cbn [sf_int cond_Zopp]. rewrite Hp. lia.
  - (* the sum is negative *)
    destruct sb; cbn [cond_Zopp] in HΣ |- *;
      [|exfalso; rewrite <- Pos2Z.opp_pos in HΣ;
        assert (0 < Zpos q * 2 ^ (ez + 1074))
          by (apply Z.mul_pos_pos; [lia|apply pow2_pos; lia]); lia].
    rewrite <- Pos2Z.opp_pos in HΣ.
    pose proof (round_spec true q ez Hez) as Hrs. cbv zeta in Hrs.
    assert (0 < 2 ^ (ez + 1074)) as Hpez by (apply pow2_pos; lia).
    destruct (fexp_floor (Zpos (digits2_pos q) + ez)) as [HF0 HF1].
    assert (Zpos q * 2 ^ (ez + 1074) < Zpos mb * 2 ^ (eb + 1074)) as Hlt by lia.
    pose proof (round_neg_above q ez mb eb Hb Hez Hlt) as Hnb.
    pose proof (digits_below q ez mb eb Hez ltac:(lia) Hlt) as Hd.
    apply fexp_mono in Hd. rewrite Hcanb in Hd.
    set (F := fexp prec emax (Zpos (digits2_pos q) + ez)) in *.
    set (T := Zpos q * 2 ^ (ez + 1074)) in *.
    assert (0 < 2 ^ (F + 1074)) as HG by (apply pow2_pos; lia).
    destruct Hrs as (m2 & p & e2 & Hm2 & Hlo & Hhi & Hp & He2 & Hc & Hr).
    rewrite Hr in Hnb |- *.
    destruct (e2 <=? emax - prec); [|done].
    split; [done|]. cbn [sf_int cond_Zopp]. rewrite Hp.
    destruct (div_mod_parts T (2 ^ (F + 1074)) HG) as [Hdm Hρ].
    destruct (Z_le_gt_dec F k) as [HFk|HFk].
    + assert (2 ^ (F + 1074) ≤ 2 ^ (k + 1074)) as HGk by (apply Z.pow_le_mono_r; lia).
      assert (T / 2 ^ (F + 1074) * 2 ^ (F + 1074) ≤ m2 * 2 ^ (F + 1074))
        by (apply Z.mul_le_mono_nonneg_r; lia).
      lia.
    + assert (2 * 2 ^ (k + 1074) ≤ 2 ^ (F + 1074)) as HGk.
      { rewrite <- (Z.pow_succ_r 2 (k + 1074)) by lia. apply Z.pow_le_mono_r; lia. }
      destruct (gap_divides mb eb F) as (β & Hβ0 & Hβ & _); [lia|].
      rewrite Hβ in HΣ, HB, Hlt |- *.
      destruct (div_mod_known T (2 ^ (F + 1074)) (β - 1) (2 ^ (F + 1074) - E))
        as [Hq Hr']; [lia|lia|].
      rewrite Hq, Hr' in *.
      assert (m2 = β - 1 + 1) as -> by (apply Hhi; lia).
      replace (β - 1 + 1) with β by lia. lia.
Qed.
End Small.

Section Debit.
Local Open Scope Z_scope.

Lemma SFltb_int_false (x y : spec_float) :
  valid_binary x = true → valid_binary y = true →
  sf_finite x = true → sf_finite y = true →
  SFltb x y = false ↔ sf_int y ≤ sf_int x.
Proof.
  intros Hx Hy Fx Fy. pose proof (SFltb_int x y Hx Hy Fx Fy) as H.
  destruct (SFltb x y); split; intros; first [done | lia].
Qed.

(* the funds check of the routes, [b + 1e-9 < cost] being false, and the
   guard of [change_balance], [b + -cost < -1e-8]: a debit that passes the
   first passes the second *)
Lemma check_then_guard (b cost : spec_float) :
  valid_binary b = true → valid_binary cost = true →
  valid_binary (SFadd prec emax b (S754_finite false 4835703278458517 (-82))) = true →
  SFltb (SFadd prec emax b (S754_finite false 4835703278458517 (-82))) cost = false →
  SFltb (SFadd prec emax b (SFopp cost)) (S754_finite true 6044629098073146 (-79)) = false.
Proof.
  intros Hb Hc Hs Hcheck.
  assert (bounded prec emax 4835703278458517 (-82) = true) as H9 by reflexivity.
  assert (bounded prec emax 6044629098073146 (-79) = true) as H8 by reflexivity.
  destruct b as [sb|sb| |sb mb eb].
  - (* b is a zero *)
    destruct cost as [sc|sc| |sc mc ec].
    + by destruct sb, sc.
    + by destruct sb, sc.
    + by destruct sb.
    + assert (SFadd prec emax (S754_zero sb) (S754_finite false 4835703278458517 (-82))
              = S754_finite false 4835703278458517 (-82)) as Es by (by destruct sb).
      rewrite Es in Hcheck. apply SFltb_int_false in Hcheck; [|done..].
      assert (SFadd prec emax (S754_zero sb) (SFopp (S754_finite sc mc ec))
              = S754_finite (negb sc) mc ec) as -> by (by destruct sb).
      apply SFltb_int_false; [done..|].
      cbn [sf_int cond_Zopp] in Hcheck |- *.
      assert (4835703278458517 * 2 ^ (-82 + 1074) ≤ 6044629098073146 * 2 ^ (-79 + 1074))
        by (vm_compute; discriminate).
      destruct sc; cbn [negb cond_Zopp] in *; lia.
  - (* b is an infinity *)
    destruct sb, cost as [[]|[]| |[] mc ec]; done.
  - (* b is not a number *)
    by destruct cost.
  - (* b is a finite number *)
    destruct (SFadd_small sb mb eb 4835703278458517 (-82) (-27)
                (6044629098073146 * 2 ^ (-79 + 1074)))
      as [Fs Vs]; [done|done|lia|vm_compute; reflexivity|vm_compute; reflexivity|].
    set (s := SFadd prec emax (S754_finite sb mb eb)
                (S754_finite false 4835703278458517 (-82))) in *.
    destruct cost as [sc|sc| |sc mc ec].
    + apply SFltb_int_false in Hcheck; [|done..].
      assert (SFadd prec emax (S754_finite sb mb eb) (SFopp (S754_zero sc))
              = S754_finite sb mb eb) as -> by (by destruct sc).
      apply SFltb_int_false; [done..|].
      cbn [sf_int cond_Zopp] in Hcheck, Vs |- *. lia.
    + destruct sc; [done|].
      destruct s as [[]|[]| |[] ms es]; done.
    + done.
    + apply SFltb_int_false in Hcheck; [|done..].
      apply SFadd_above; [done..|].
      cbn [SFopp sf_int cond_Zopp] in Hcheck, Vs |- *.
      destruct sc; cbn [negb cond_Zopp] in *; lia.
Qed.
End Debit.

Section Binary64.

Lemma f64_nonneg (x : float) :
  ltb x (lit 0) = false ↔ sf_nonneg (Prim2SF x) = true.
Proof.
  change (ltb x (lit 0)) with (PrimFloat.ltb x 0).
  rewrite FloatAxioms.ltb_spec. change (Prim2SF 0) with (S754_zero false).
  by destruct (Prim2SF x) as [[]|[]| |[] m e].
Qed.

Lemma f64_rate : ∃ m e, Prim2SF (lit 50.23) = S754_finite false m e.
Proof. vm_compute. eauto. Qed.

Lemma f64_eps : ∃ m e, Prim2SF (neg (lit 1e-8)) = S754_finite true m e.
Proof. vm_compute. eauto. Qed.

Lemma F64_ordered : ordered float.
Proof.
  split; try (vm_compute; reflexivity).
  - intros a b Ha%f64_nonneg Hb%f64_nonneg. apply f64_nonneg.
    change (add a b) with (PrimFloat.add a b).
    rewrite FloatAxioms.add_spec. by apply SFadd_nonneg.
  - intros a b Ha%f64_nonneg Hb%f64_nonneg. apply f64_nonneg.
    change (mul a b) with (PrimFloat.mul a b).
    rewrite FloatAxioms.mul_spec. by apply SFmul_nonneg.
  - intros a Ha%f64_nonneg. apply f64_nonneg.
    change (div a (lit 50.23)) with (PrimFloat.div a (lit 50.23)).
    rewrite FloatAxioms.div_spec. destruct f64_rate as (m & e & ->).
    by apply SFdiv_nonneg.
  - intros a b Ha Hb%f64_nonneg.
    change (ltb (add a b) (neg (lit 1e-8)))
      with (PrimFloat.ltb (PrimFloat.add a b) (neg (lit 1e-8))).
    change (ltb a (neg (lit 1e-8))) with (PrimFloat.ltb a (neg (lit 1e-8))) in Ha.
    rewrite FloatAxioms.ltb_spec in Ha |- *. rewrite FloatAxioms.add_spec.
    destruct f64_eps as (C & eC & E). rewrite E in Ha |- *.
    apply SFadd_not_below; [apply Prim2SF_valid|done|done].
Qed.

Lemma SFcompare_antisym (x y : spec_float) :
  SFcompare y x = CompOpp <$> SFcompare x y.
Proof.
  destruct x as [[]|[]| |[] mx ex], y as [[]|[]| |[] my ey]; try done; cbn;
    rewrite (Z.compare_antisym ey ex);
    change (Pos.compare_cont Eq) with Pos.compare;
    rewrite (Pos.compare_antisym my mx);
    destruct (ey ?= ex)%Z; cbn; try done; by destruct (my ?= mx)%positive.
Qed.

Lemma f64_is_nan (x : float) : Prim2SF x = S754_nan ↔ PrimFloat.is_nan x = true.
Proof.
  unfold Prim2SF. destruct (PrimFloat.is_nan x); [done|].
  split; [|done].
  destruct (is_zero x); [done|]. destruct (is_infinity x); [done|].
  destruct (Z.frexp x) as [r ex]. destruct (shr_fexp _ _ _ _ _) as [s e].
  by destruct (shr_m s).
Qed.

(* [a < c] being false means [c <= a], unless [a] is not a number *)
Lemma f64_not_below (c a : float) :
  PrimFloat.is_nan c = false →
  PrimFloat.ltb a c = false ↔ at_least c a.
Proof.
  intros Hc. unfold at_least.
  rewrite FloatAxioms.ltb_spec, FloatAxioms.leb_spec, <- f64_is_nan.
  assert (Prim2SF c ≠ S754_nan) as Hc'.
  { intros E%f64_is_nan. congruence. }
  unfold SFltb, SFleb. rewrite (SFcompare_antisym (Prim2SF a) (Prim2SF c)).
  destruct (Prim2SF a) as [[]|[]| |[] ma ea] eqn:Ea,
           (Prim2SF c) as [[]|[]| |[] mc ec] eqn:Ec; cbn;
    try (split; [intros ?; (by left) || (by right) | by intros [|]]); try done;
    destruct (ea ?= ec)%Z; cbn; try (split; [by left| done]);
      try (split; [done | by intros [|]]);
    destruct (Pos.compare_cont Eq ma mc); cbn;
      try (split; [by left| done]); try (split; [done | by intros [|]]).
Qed.

(* in binary64 the funds check of the routes is the stricter test *)
Lemma f64_check_then_guard (b cost : float) :
  ltb (add b (lit 1e-9)) cost = false →
  ltb (add b (neg cost)) (neg (lit 1e-8)) = false.
Proof.
  change (ltb (add b (lit 1e-9)) cost)
    with (PrimFloat.ltb (PrimFloat.add b (lit 1e-9)) cost).
  change (ltb (add b (neg cost)) (neg (lit 1e-8)))
    with (PrimFloat.ltb (PrimFloat.add b (PrimFloat.opp cost)) (neg (lit 1e-8))).
  rewrite !FloatAxioms.ltb_spec, !FloatAxioms.add_spec, FloatAxioms.opp_spec.
  pose proof (Prim2SF_valid (PrimFloat.add b (lit 1e-9))) as Hs.
  rewrite FloatAxioms.add_spec in Hs.
  change (Prim2SF (lit 1e-9)) with (S754_finite false 4835703278458517 (-82)) in *.
  change (Prim2SF (neg (lit 1e-8))) with (S754_finite true 6044629098073146 (-79)).
  apply check_then_guard; [apply Prim2SF_valid..|done].
Qed.

End Binary64.

(** ** The invest route *)

Section InvestRoute.
Context {num : Type} `{Arith num}.
Local Open Scope num_scope.

Lemma invest_rejected (w : world num) uid asset shares currency rate :
  CURRENCY_RATES_EUR !! currency = Some rate →
  (balance_of w uid currency + lit 1e-9 <? shares * get_price w asset / rate) = true →
  invest w uid asset shares currency = inr (InsufficientFunds, w).
Proof. unfold invest, balance_of. by intros -> ->. Qed.

Lemma invest_bought (w : world num) uid asset shares currency rate :
  CURRENCY_RATES_EUR !! currency = Some rate →
  let cost := shares * get_price w asset / rate in
  (balance_of w uid currency + lit 1e-9 <? cost) = false →
  invest w uid asset shares currency =
    inr (Bought shares asset cost currency,
         add_investment (change_balance w uid currency (- cost)).2 uid asset shares).
Proof.
  intros Er cost Echeck. unfold invest. rewrite Er.
  by fold (balance_of w uid currency) cost; rewrite Echeck.
Qed.

Lemma position_same (w w' : world num) u a :
  investments w' = investments w → position w' u a = position w u a.
Proof. unfold position. by intros ->. Qed.

(* what the debit followed by [add_investment] leaves behind, whether or
   not [change_balance] accepted the debit *)
Lemma purchase_effect (w : world num) uid asset shares currency delta :
  let r := change_balance w uid currency delta in
  let w' := add_investment r.2 uid asset shares in
  (r.1 = true → balance_of w' uid currency = balance_of w uid currency + delta)
  ∧ (r.1 = false → balance_of w' uid currency = balance_of w uid currency)
  ∧ (∀ u c, (u, c) ≠ (uid, currency) → balance_of w' u c = balance_of w u c)
  ∧ position w' uid asset =
      Some (match position w uid asset with Some old => old + shares | None => shares end)
  ∧ filter (λ r, ¬ holds uid asset r) (investments w')
      = filter (λ r, ¬ holds uid asset r) (investments w)
  ∧ users w' = users w ∧ prices w' = prices w ∧ asset_prices w' = asset_prices w.
Proof.
  intros r w'. subst r w'.
  pose proof (change_balance_cases w uid currency delta) as Hc.
  destruct (change_balance w uid currency delta) as [ok w1]. cbn [fst snd].
  destruct (add_investment_spec w1 uid asset shares) as (Hp & Hf & _ & Hb & Hu & Hpr & Hap).
  rewrite Hp, Hf, Hu, Hpr, Hap.
  destruct ok.
  - destruct Hc as (_ & Hb1 & _ & Hu1 & Hi1 & Hp1 & Ha1).
    rewrite (position_same _ _ _ _ Hi1), Hi1.
    split; [intros _; eapply balance_of_insert_eq; by rewrite Hb|].
    split; [discriminate|].
    split; [|done]. intros u c Hne. eapply balance_of_insert_ne; [|done]. by rewrite Hb.
  - destruct Hc as [_ ->].
    split; [discriminate|]. split; [intros _; by apply balance_of_same|].
    split; [|done]. intros u c _. by apply balance_of_same.
Qed.

(* the code's arithmetic, whatever it is *)
Lemma invest_effect (w w' : world num) uid asset n currency fl :
  invest w uid asset n currency = inr (fl, w') →
  fl ≠ InsufficientFunds →
  ∃ rate, CURRENCY_RATES_EUR !! currency = Some rate
    ∧ let cost := n * get_price w asset / rate in
      fl = Bought n asset cost currency
      ∧ ((change_balance w uid currency (- cost)).1 = true →
           balance_of w' uid currency = balance_of w uid currency + - cost)
      ∧ position w' uid asset =
          Some (match position w uid asset with Some old => old + n | None => n end)
      ∧ (∀ u c, (u, c) ≠ (uid, currency) → balance_of w' u c = balance_of w u c)
      ∧ (∀ u a, (u, a) ≠ (uid, asset) → position w' u a = position w u a)
      ∧ filter (λ r, ¬ holds uid asset r) (investments w')
          = filter (λ r, ¬ holds uid asset r) (investments w).
Proof.
  intros Hinv Hfl.
  destruct (CURRENCY_RATES_EUR !! currency) as [rate|] eqn:Er;
    [|unfold invest in Hinv; by rewrite Er in Hinv].
  exists rate. split; [done|]. intros cost.
  destruct (balance_of w uid currency + lit 1e-9 <? cost) eqn:Echeck.
  { rewrite (invest_rejected _ _ _ _ _ _ Er Echeck) in Hinv. by simplify_eq. }
  rewrite (invest_bought _ _ _ _ _ _ Er Echeck) in Hinv. fold cost in Hinv.
  injection Hinv as <- <-.
  destruct (purchase_effect w uid asset n currency (- cost))
    as (Hb & _ & Ho & Hp & Hf & _).
  split; [done|]. split; [done|]. split; [done|]. split; [done|].
  split; [|done]. intros u a Hne. by eapply position_other.
Qed.
End InvestRoute.

Lemma invest_effect_exact (w w' : world Qc) (uid : nat) (asset : string) (n : Qc)
    (currency : string) (fl : flash Qc) :
  invest w uid asset n currency = inr (fl, w') →
  fl ≠ InsufficientFunds →
  ∃ rate, CURRENCY_RATES_EUR !! currency = Some rate
    ∧ let cost := (n * get_price w asset / rate)%Qc in
      fl = Bought n asset cost currency
      ∧ balance_of w' uid currency = (balance_of w uid currency - cost)%Qc
      ∧ position w' uid asset = Some (default 0%Qc (position w uid asset) + n)%Qc
      ∧ (∀ u c, (u, c) ≠ (uid, currency) → balance_of w' u c = balance_of w u c)
      ∧ (∀ u a, (u, a) ≠ (uid, asset) → position w' u a = position w u a)
      ∧ filter (λ r, ¬ holds uid asset r) (investments w')
          = filter (λ r, ¬ holds uid asset r) (investments w).
Proof.
  intros Hinv Hfl.
  destruct (invest_effect w w' uid asset n currency fl Hinv Hfl)
    as (rate & Er & Hfl' & Hb & Hp & Ho & Hpo & Hf).
  exists rate. split; [done|]. intros cost. split; [done|].
  split; [|split; [|done]].
  - apply Hb.
    destruct (ltb (add (balance_of w uid currency) (lit 1e-9)) cost) eqn:Echeck.
    { rewrite (invest_rejected _ _ _ _ _ _ Er Echeck) in Hinv. by simplify_eq. }
    exact (f_equal fst (@change_balance_accept Qc Exact _ _ _ _
                          (debit_after_check _ _ Echeck))).
  - etrans; [exact Hp|]. destruct (position w uid asset); cbn [default]; f_equal.
    change (n = 0 + n)%Qc. ring.
Qed.

Lemma invest_effect_f64 (w w' : world float) (uid : nat) (asset : string) (n : float)
    (currency : string) (fl : flash float) :
  invest w uid asset n currency = inr (fl, w') →
  fl ≠ InsufficientFunds →
  ∃ rate, CURRENCY_RATES_EUR !! currency = Some rate
    ∧ let cost := div (mul n (get_price w asset)) rate in
      fl = Bought n asset cost currency
      ∧ balance_of w' uid currency = add (balance_of w uid currency) (neg cost)
      ∧ position w' uid asset =
          Some (match position w uid asset with Some old => add old n | None => n end)
      ∧ (∀ u c, (u, c) ≠ (uid, currency) → balance_of w' u c = balance_of w u c)
      ∧ (∀ u a, (u, a) ≠ (uid, asset) → position w' u a = position w u a)
      ∧ filter (λ r, ¬ holds uid asset r) (investments w')
          = filter (λ r, ¬ holds uid asset r) (investments w).
Proof.
  intros Hinv Hfl.
  destruct (invest_effect w w' uid asset n currency fl Hinv Hfl)
    as (rate & Er & Hfl' & Hb & Hp & Ho & Hpo & Hf).
  exists rate. split; [done|]. intros cost. split; [done|].
  split; [|done]. apply Hb.
  destruct (ltb (add (balance_of w uid currency) (lit 1e-9)) cost) eqn:Echeck.
  { rewrite (invest_rejected _ _ _ _ _ _ Er Echeck) in Hinv. by simplify_eq. }
  exact (f_equal fst (change_balance_accept w uid currency (neg cost)
                        (f64_check_then_guard _ _ Echeck))).
Qed.



(** ** The gamble route *)

Section GambleRoute.
Context {num : Type} `{Arith num}.
Local Open Scope num_scope.

Lemma gamble_cases (w : world num) uid currency units sample :
  let b := balance_of w uid currency in
  let w1 := (change_balance w uid currency (- units)).2 in
  gamble w uid currency units sample =
    if b + lit 1e-9 <? units then (InsufficientFunds, w)
    else if b + - units <? - lit 1e-8 then (DebitFailed, w)
    else if sample <? lit 0.45
         then (Won (units * lit 2) currency,
               (change_balance w1 uid currency (units * lit 2)).2)
         else (Lost units currency, w1).
Proof.
  intros b w1. unfold gamble. fold (balance_of w uid currency). fold b.
  destruct (b + lit 1e-9 <? units); [done|]. subst w1.
  destruct (b + - units <? - lit 1e-8) eqn:E.
  - by rewrite (change_balance_reject _ _ _ _ E).
  - by rewrite (change_balance_accept _ _ _ _ E).
Qed.
End GambleRoute.

Section GambleEffect.
Context {num : Type} `{Arith num}.
Local Open Scope num_scope.

(* the code's arithmetic, whatever it is *)
Lemma gamble_effect (w w' : world num) uid currency stake sample fl :
  gamble w uid currency stake sample = (fl, w') →
  fl ≠ InsufficientFunds → fl ≠ DebitFailed →
  let win := sample <? lit 0.45 in
  let w1 := (change_balance w uid currency (- stake)).2 in
  fl = (if win then Won (stake * lit 2) currency else Lost stake currency)
  ∧ (win = false → balance_of w' uid currency = balance_of w uid currency + - stake)
  ∧ (win = true → (change_balance w1 uid currency (stake * lit 2)).1 = true →
       balance_of w' uid currency = balance_of w uid currency + - stake + stake * lit 2)
  ∧ (∀ u c, (u, c) ≠ (uid, currency) → balance_of w' u c = balance_of w u c)
  ∧ investments w' = investments w ∧ users w' = users w.
Proof.
  intros Hg Hfl1 Hfl2 win w1. rewrite gamble_cases in Hg. fold win w1 in Hg.
  destruct (balance_of w uid currency + lit 1e-9 <? stake); [by simplify_eq|].
  destruct (balance_of w uid currency + - stake <? - lit 1e-8) eqn:Edebit;
    [by simplify_eq|].
  destruct (change_balance_frame w uid currency (- stake)) as (Hb1 & _ & Ho1 & Hu1 & Hi1 & _).
  specialize (Hb1 (f_equal fst (change_balance_accept _ _ _ _ Edebit))).
  fold w1 in Hb1, Ho1, Hu1, Hi1.
  destruct win.
  - injection Hg as <- <-.
    destruct (change_balance_frame w1 uid currency (stake * lit 2))
      as (Hb2 & _ & Ho2 & Hu2 & Hi2 & _).
    split; [done|]. split; [discriminate|].
    split; [intros _ Hacc; by rewrite (Hb2 Hacc), Hb1|].
    split; [intros u c Hne; by rewrite (Ho2 _ _ Hne), (Ho1 _ _ Hne)|].
    split; congruence.
  - injection Hg as <- <-.
    split; [done|]. split; [done|]. split; [discriminate|]. by split.
Qed.
End GambleEffect.

Lemma gamble_effect_exact (w w' : world Qc) (uid : nat) (currency : string)
    (stake sample : Qc) (fl : flash Qc) :
  (0 < stake)%Qc →
  gamble w uid currency stake sample = (fl, w') →
  fl ≠ InsufficientFunds → fl ≠ DebitFailed →
  let win := ltb sample (lit 0.45) in
  balance_of w' uid currency =
    (if win then balance_of w uid currency - stake + Q2Qc 2 * stake
     else balance_of w uid currency - stake)%Qc
  ∧ fl = (if win then Won (stake * Q2Qc 2)%Qc currency else Lost stake currency)
  ∧ (∀ u c, (u, c) ≠ (uid, currency) → balance_of w' u c = balance_of w u c)
  ∧ investments w' = investments w ∧ users w' = users w.
Proof.
  intros Hs Hg Hfl1 Hfl2 win.
  destruct (gamble_effect w w' uid currency stake sample fl Hg Hfl1 Hfl2)
    as (Hfl & Hlost & Hwon & Hrest).
  fold win in Hfl, Hlost, Hwon. split; [|by split].
  destruct win; [|by apply Hlost].
  assert (ltb (add (balance_of w uid currency) (neg stake)) (neg (lit 1e-8)) = false)
    as Edebit.
  { rewrite gamble_cases in Hg.
    destruct (ltb (add (balance_of w uid currency) (lit 1e-9)) stake); [by simplify_eq|].
    destruct (ltb (add (balance_of w uid currency) (neg stake)) (neg (lit 1e-8)));
      [by simplify_eq | done]. }
  rewrite Hwon; [|done|].
  { change (balance_of w uid currency + - stake + stake * Q2Qc 2
            = balance_of w uid currency - stake + Q2Qc 2 * stake)%Qc. ring. }
  destruct (change_balance_frame w uid currency (neg stake)) as (Hb1 & _).
  specialize (Hb1 (f_equal fst (change_balance_accept _ _ _ _ Edebit))).
  refine (f_equal fst (@change_balance_accept Qc Exact _ _ _ _ _)).
  rewrite Hb1. by apply credit_accepted.
Qed.



(** ** A change and its inverse *)

Section Undo.
Context {num : Type} `{Arith num}.
Local Open Scope num_scope.

Lemma change_balance_twice (w w1 w2 : world num) u c d1 d2 :
  change_balance w u c d1 = (true, w1) →
  change_balance w1 u c d2 = (true, w2) →
  balance_of w2 u c = balance_of w u c + d1 + d2.
Proof.
  intros E1 E2.
  pose proof (change_balance_cases w u c d1) as H1. rewrite E1 in H1.
  pose proof (change_balance_cases w1 u c d2) as H2. rewrite E2 in H2.
  destruct H1 as (_ & Hb1 & _), H2 as (_ & Hb2 & _).
  rewrite (balance_of_insert_eq _ _ _ _ _ Hb2).
  by rewrite (balance_of_insert_eq _ _ _ _ _ Hb1).
Qed.
End Undo.




(** ** A cashout of nothing *)

Section CashoutNothing.
Context {num : Type} `{Arith num}.
Local Open Scope num_scope.

Lemma cashout_no_rows (w : world num) uid today r :
  users w !! uid = Some r →
  last_cashout r ≠ Some today →
  rows_of w uid = [] →
  (lit 0 <? lit 50.23) = true →
  ∃ w', cashout w uid today = (true, CashedOut (lit 0) (lit 0 / lit 50.23), w')
    ∧ balances w' = <[(uid, "WRR") := balance_of w uid "WRR" + lit 0 / lit 50.23]> (balances w)
    ∧ last_cashout_of w' uid = Some today
    ∧ cashout w' uid today = (false, AlreadyCashedOutToday, w').
Proof.
  intros Hr Hlast Hrows Hpos.
  destruct (cashout_runs w uid today) as (w' & Hc & _ & Hb & Hu & _);
    [by unfold last_cashout_of; rewrite Hr | done |].
  rewrite Hrows in Hc, Hb. cbn [value_of foldl] in Hc, Hb.
  assert (last_cashout_of w' uid = Some today) as Hd
    by (eapply last_cashout_of_alter; [by rewrite Hr | exact Hu]).
  exists w'. split; [done|]. split; [done|]. split; [done|]. by apply cashout_refused.
Qed.
End CashoutNothing.

(* adding 0.0 keeps the amount: the float itself, except that -0.0 becomes 0.0 *)
Lemma f64_add_zero (x : float) : same_amount (PrimFloat.add x 0) x.
Proof.
  assert (Prim2SF (PrimFloat.add x 0) = SF64add (Prim2SF x) (S754_zero false)) as E
    by (rewrite add_spec; reflexivity).
  destruct (Prim2SF x) as [s|s| |s m e] eqn:Ex.
  - destruct s.
    + right. rewrite FloatAxioms.eqb_spec, E, Ex. reflexivity.
    + left. apply Prim2SF_inj. rewrite E, Ex. reflexivity.
  - left. apply Prim2SF_inj. rewrite E, Ex. reflexivity.
  - left. apply Prim2SF_inj. rewrite E, Ex. reflexivity.
  - left. apply Prim2SF_inj. rewrite E, Ex. reflexivity.
Qed.

Lemma cashout_nothing_f64 (w : world float) (uid : nat) (today : string) (r : user_row) :
  users w !! uid = Some r →
  last_cashout r ≠ Some today →
  rows_of w uid = [] →
  ∃ w', cashout w uid today = (true, CashedOut 0%float 0%float, w')
    ∧ (∀ u c, same_amount (balance_of w' u c) (balance_of w u c))
    ∧ last_cashout_of w' uid = Some today
    ∧ cashout w' uid today = (false, AlreadyCashedOutToday, w').
Proof.
  intros Hr Hlast Hrows.
  destruct (cashout_no_rows w uid today r Hr Hlast Hrows) as (w' & Hc & Hb & Hd & Hn);
    [reflexivity|].
  assert (div (lit 0) (lit 50.23) = 0%float) as E0 by reflexivity.
  rewrite E0 in Hc, Hb.
  exists w'. split; [exact Hc|]. split; [|by split].
  intros u c. destruct (decide ((u, c) = (uid, "WRR"))) as [[= -> ->]|Hne].
  - rewrite (balance_of_insert_eq _ _ _ _ _ Hb). apply f64_add_zero.
  - left. by eapply balance_of_insert_ne.
Qed.

Lemma cashout_nothing_exact (w : world Qc) (uid : nat) (today : string) (r : user_row) :
  users w !! uid = Some r →
  last_cashout r ≠ Some today →
  rows_of w uid = [] →
  ∃ w', cashout w uid today = (true, CashedOut 0%Qc 0%Qc, w')
    ∧ (∀ u c, balance_of w' u c = balance_of w u c)
    ∧ last_cashout_of w' uid = Some today
    ∧ cashout w' uid today = (false, AlreadyCashedOutToday, w').
Proof.
  intros Hr Hlast Hrows.
  destruct (cashout_no_rows w uid today r Hr Hlast Hrows) as (w' & Hc & Hb & Hd & Hn);
    [reflexivity|].
  assert (div (lit 0) (lit 50.23) = 0%Qc) as E0 by (apply Qc_is_canon; reflexivity).
  rewrite E0 in Hc, Hb.
  exists w'. split; [exact Hc|]. split; [|by split].
  intros u c. destruct (decide ((u, c) = (uid, "WRR"))) as [[= -> ->]|Hne].
  - rewrite (balance_of_insert_eq _ _ _ _ _ Hb).
    change (balance_of w uid "WRR" + 0 = balance_of w uid "WRR")%Qc. ring.
  - by eapply balance_of_insert_ne.
Qed.



(** ** Keeping the invariant *)

Section Sound.
Local Open Scope Qc_scope.
Implicit Types w : world Qc.

Lemma sound_balance w u c : sound w → - Q2Qc 1e-8 ≤ balance_of w u c.
Proof.
  intros (Hb & _). rewrite balance_of_lookup.
  destruct (balances w !! (u, c)) as [a|] eqn:E; cbn [default].
  - by apply (Hb _ _ E).
  - vm_compute. discriminate.
Qed.

Lemma sound_get_price w a : sound w → 0 ≤ get_price w a.
Proof.
  intros (_ & _ & Hp & Ha). unfold get_price.
  destruct (prices w !! a) as [p|] eqn:Ep; [by apply (Hp _ _ Ep)|].
  destruct (asset_prices w !! a) as [p|] eqn:Ea; cbn [default];
    [by apply (Ha _ _ Ea)|].
  vm_compute. discriminate.
Qed.

Lemma sound_change_balance w u c delta :
  sound w → sound (change_balance w u c delta).2.
Proof.
  intros Hs. pose proof (change_balance_cases w u c delta) as Hc.
  destruct (change_balance w u c delta) as [[] w']; cbn [snd].
  - destruct Hc as (Hn & Hb & _ & _ & Hi & Hp & Ha).
    destruct Hs as (Sb & Si & Sp & Sa). unfold sound.
    rewrite Hb, Hi, Hp, Ha. split; [|done].
    apply map_Forall_insert_2; [|done]. by apply Qcltb_false.
  - by destruct Hc as [_ ->].
Qed.

Lemma sound_add_investment w u a shares :
  sound w → 0 ≤ shares → sound (add_investment w u a shares).
Proof.
  intros (Sb & Si & Sp & Sa) Hn.
  destruct (add_investment_spec w u a shares) as (_ & _ & HQ & Hb & _ & Hp & Ha).
  unfold sound. rewrite Hb, Hp, Ha. split; [done|]. split; [|done].
  apply HQ; [done| |done]. intros r Hr. cbn. by apply add_nonneg.
Qed.

Lemma value_of_nonneg w rows :
  sound w → Forall (λ r, 0 ≤ inv_shares r) rows → 0 ≤ value_of w rows.
Proof.
  intros Hs Hrows. unfold value_of. change (lit 0) with 0%Qc.
  assert (∀ acc, 0 ≤ acc →
    0 ≤ foldl (λ acc r, add acc (mul (inv_shares r) (get_price w (inv_asset r)))) acc rows)
    as Hfold; [|apply Hfold, Qcle_refl].
  induction Hrows as [|r rows Hr _ IH]; intros acc Hacc; [done|].
  cbn [foldl]. apply IH. apply add_nonneg; [done|].
  apply Qcmult_nonneg_nonneg; [done | by apply sound_get_price].
Qed.

Lemma sound_cashout w u today : sound w → sound (cashout w u today).2.
Proof.
  intros Hs. destruct (decide (last_cashout_of w u = Some today)) as [E|E].
  { by rewrite (cashout_refused _ _ _ E). }
  destruct (cashout_runs w u today E) as (w' & Hc & Hi & Hb & _ & _ & Hp & Ha);
    [reflexivity|].
  rewrite Hc. cbn [snd]. pose proof Hs as (Sb & Si & Sp & Sa).
  unfold sound. rewrite Hi, Hb, Hp, Ha.
  split; [|split; [|done]].
  - apply map_Forall_insert_2; [|done].
    apply credit_nonneg; [by apply sound_balance|]. apply div_rate_nonneg.
    apply value_of_nonneg; [done|].
    apply Forall_forall. intros r [_ Hr]%list_elem_of_filter.
    by apply (proj1 (Forall_forall _ _) Si).
  - apply Forall_forall. intros r [_ Hr]%list_elem_of_filter.
    by apply (proj1 (Forall_forall _ _) Si).
Qed.

Lemma sound_invest w uid asset shares currency :
  sound w → 0 ≤ shares → sound (step w (Invest uid asset shares currency)).
Proof.
  intros Hs Hn. cbn [step]. unfold invest.
  destruct (CURRENCY_RATES_EUR !! currency) as [rate|]; [|done].
  destruct (ltb _ _); [done|].
  apply sound_add_investment; [|done]. by apply sound_change_balance.
Qed.

Lemma sound_gamble w uid currency units sample :
  sound w → sound (gamble w uid currency units sample).2.
Proof.
  intros Hs. rewrite gamble_cases.
  repeat (destruct (ltb _ _); [done|]).
  destruct (ltb _ _); cbn [snd]; eauto using sound_change_balance.
Qed.

Lemma sound_step w o : sound w → buys_nonneg o → sound (step w o).
Proof.
  intros Hs Ho. destruct o as [u c d|u a n c|u t|u c s r].
  - by apply sound_change_balance.
  - by apply sound_invest.
  - by apply sound_cashout.
  - by apply sound_gamble.
Qed.

Lemma sound_run w ops : sound w → Forall buys_nonneg ops → sound (run w ops).
Proof.
  intros Hs Hops. revert w Hs.
  induction Hops as [|o ops Ho _ IH]; intros w Hs; [done|].
  apply IH. by apply sound_step.
Qed.
End Sound.

(** ** Keeping the invariant, whatever the arithmetic *)

Section Ledger.
Context {num : Type} `{Arith num} (L : ordered num).
Local Open Scope num_scope.
Implicit Types w : world num.

Lemma ledger_ok_balance w u c :
  ledger_ok w → (balance_of w u c <? - lit 1e-8) = false.
Proof.
  intros (Hb & _). rewrite balance_of_lookup.
  destruct (balances w !! (u, c)) as [a|] eqn:E; cbn [default].
  - by apply (Hb _ _ E).
  - apply (zero_above_eps _ L).
Qed.

Lemma ledger_ok_get_price w a : ledger_ok w → (get_price w a <? lit 0) = false.
Proof.
  intros (_ & _ & Hp & Ha). unfold get_price.
  destruct (prices w !! a) as [p|] eqn:Ep; [by apply (Hp _ _ Ep)|].
  destruct (asset_prices w !! a) as [p|] eqn:Ea; cbn [default];
    [by apply (Ha _ _ Ea)|].
  apply (one_not_below _ L).
Qed.

Lemma ledger_ok_change_balance w u c delta :
  ledger_ok w → ledger_ok (change_balance w u c delta).2.
Proof.
  intros Hs. pose proof (change_balance_cases w u c delta) as Hc.
  destruct (change_balance w u c delta) as [[] w']; cbn [snd].
  - destruct Hc as (Hn & Hb & _ & _ & Hi & Hp & Ha).
    destruct Hs as (Sb & Si & Sp & Sa). unfold ledger_ok.
    rewrite Hb, Hi, Hp, Ha. split; [|done].
    by apply map_Forall_insert_2.
  - by destruct Hc as [_ ->].
Qed.

Lemma ledger_ok_add_investment w u a shares :
  ledger_ok w → (shares <? lit 0) = false → ledger_ok (add_investment w u a shares).
Proof.
  intros (Sb & Si & Sp & Sa) Hn.
  destruct (add_investment_spec w u a shares) as (_ & _ & HQ & Hb & _ & Hp & Ha).
  unfold ledger_ok. rewrite Hb, Hp, Ha. split; [done|]. split; [|done].
  apply HQ; [done| |done]. intros r Hr. cbn. by apply (sum_not_below _ L).
Qed.

Lemma value_of_not_below w rows :
  ledger_ok w → Forall (λ r, (inv_shares r <? lit 0) = false) rows →
  (value_of w rows <? lit 0) = false.
Proof.
  intros Hs Hrows. unfold value_of.
  assert (∀ acc, (acc <? lit 0) = false →
    (foldl (λ acc r, acc + inv_shares r * get_price w (inv_asset r)) acc rows <? lit 0) = false)
    as Hfold; [|apply Hfold, (zero_not_below _ L)].
  induction Hrows as [|r rows Hr _ IH]; intros acc Hacc; [done|].
  cbn [foldl]. apply IH. apply (sum_not_below _ L); [done|].
  apply (product_not_below _ L); [done | by apply ledger_ok_get_price].
Qed.

Lemma ledger_ok_cashout w u today : ledger_ok w → ledger_ok (cashout w u today).2.
Proof.
  intros Hs. destruct (decide (last_cashout_of w u = Some today)) as [E|E].
  { by rewrite (cashout_refused _ _ _ E). }
  destruct (cashout_runs w u today E (rate_above_zero _ L))
    as (w' & Hc & Hi & Hb & _ & _ & Hp & Ha).
  rewrite Hc. cbn [snd]. pose proof Hs as (Sb & Si & Sp & Sa).
  unfold ledger_ok. rewrite Hi, Hb, Hp, Ha.
  split; [|split; [|done]].
  - apply map_Forall_insert_2; [|done].
    apply (credit_not_below _ L); [by apply ledger_ok_balance|].
    apply (quotient_not_below _ L).
    apply value_of_not_below; [done|].
    apply Forall_forall. intros r [_ Hr]%list_elem_of_filter.
    by apply (proj1 (Forall_forall _ _) Si).
  - apply Forall_forall. intros r [_ Hr]%list_elem_of_filter.
    by apply (proj1 (Forall_forall _ _) Si).
Qed.

Lemma ledger_ok_step w o : ledger_ok w → buys_not_below o → ledger_ok (step w o).
Proof.
  intros Hs Ho. destruct o as [u c d|u a n c|u t|u c s r]; cbn [step].
  - by apply ledger_ok_change_balance.
  - unfold invest. destruct (CURRENCY_RATES_EUR !! c) as [rate|]; [|done].
    destruct (_ <? _); [done|].
    apply ledger_ok_add_investment; [|done]. by apply ledger_ok_change_balance.
  - by apply ledger_ok_cashout.
  - rewrite gamble_cases. repeat (destruct (_ <? _); [done|]).
    destruct (_ <? _); cbn [snd]; eauto using ledger_ok_change_balance.
Qed.

Lemma ledger_ok_run w ops :
  ledger_ok w → Forall buys_not_below ops → ledger_ok (run w ops).
Proof.
  intros Hs Hops. revert w Hs.
  induction Hops as [|o ops Ho _ IH]; intros w Hs; [done|].
  apply IH. by apply ledger_ok_step.
Qed.
End Ledger.


Lemma seeded_exact_sound : sound seeded_exact.
Proof.
  repeat split; apply map_Forall_to_list || idtac;
    vm_compute; repeat constructor; discriminate.
Qed.

Lemma seeded_ledger_ok : ledger_ok seeded.
Proof.
  repeat split; apply map_Forall_to_list || idtac;
    vm_compute; repeat constructor.
Qed.




(** ** Amounts that are not positive *)

Section NonPositive.
Local Open Scope Qc_scope.
Implicit Types w : world Qc.

Lemma rates_positive (c : string) (rate : Qc) :
  CURRENCY_RATES_EUR !! c = Some rate → 0 < rate.
Proof.
  unfold CURRENCY_RATES_EUR.
  rewrite !lookup_insert_Some, lookup_empty.
  intros [[_ <-]|[_ [[_ <-]|[_ [[_ <-]|[_ ?]]]]]]; [reflexivity..|done].
Qed.

Lemma cost_nonpos (shares price rate : Qc) :
  shares ≤ 0 → 0 ≤ price → 0 < rate → shares * price / rate ≤ 0.
Proof.
  intros Hs Hp Hr.
  assert (0 ≤ (- shares) * price * / rate) as Hn.
  { apply Qcmult_nonneg_nonneg; [apply Qcmult_nonneg_nonneg; [|done]|].
    - to_Q. lra.
    - by apply Qclt_le_weak, Qcinv_pos. }
  replace (- shares * price * / rate) with (- (shares * price / rate)) in Hn
    by (unfold Qcdiv; ring).
  revert Hn. generalize (shares * price / rate). intros x Hx. to_Q. lra.
Qed.

(* a cost or stake that is not positive passes the funds check, and its
   debit is accepted, as soon as the balance is not negative *)
Lemma nonpos_passes (b x : Qc) :
  0 ≤ b → x ≤ 0 →
  ltb (add b (lit 1e-9)) x = false ∧ ltb (add b (neg x)) (neg (lit 1e-8)) = false.
Proof.
  intros Hb Hx. assert (Qcltb (b + Q2Qc 1e-9) x = false) as Hc.
  { apply Qcltb_false. destruct eps_order as [H0 _]. revert H0.
    generalize (Q2Qc 1e-9). intros e9 H0. to_Q. lra. }
  split; [done | by apply debit_after_check].
Qed.

Lemma change_balance_logs w u c delta :
  (length (logs w) ≤ length (logs (change_balance w u c delta).2))%nat.
Proof.
  pose proof (change_balance_cases w u c delta) as Hc.
  destruct (change_balance w u c delta) as [[] w']; cbn [snd].
  - destruct Hc as (_ & _ & -> & _). rewrite length_app. lia.
  - by destruct Hc as [_ ->].
Qed.

Lemma add_investment_logs w u a shares :
  length (logs (add_investment w u a shares)) = S (length (logs w)).
Proof.
  unfold add_investment. destruct (list_find _ _) as [[i r]|]; cbn;
    rewrite length_app; cbn; lia.
Qed.
End NonPositive.

Section Refusals.
Context {num : Type} `{Arith num}.

Lemma invest_refused_same (w w' : world num) uid asset shares currency :
  invest w uid asset shares currency = inr (InsufficientFunds, w') → w' = w.
Proof.
  unfold invest. destruct (CURRENCY_RATES_EUR !! currency); [|done].
  destruct (ltb _ _); intros Hi; by simplify_eq.
Qed.

Lemma gamble_refused_same (w w' : world num) uid currency stake sample fl :
  gamble w uid currency stake sample = (fl, w') →
  fl = InsufficientFunds ∨ fl = DebitFailed → w' = w.
Proof.
  rewrite gamble_cases. intros Hg Hfl.
  destruct (ltb _ _); [by simplify_eq|].
  destruct (ltb _ _); [by simplify_eq|].
  destruct (ltb _ _); simplify_eq; by destruct Hfl.
Qed.
End Refusals.

Lemma nonpositive_taken (w : world Qc) (uid : nat) (currency : string) :
  (0 ≤ balance_of w uid currency)%Qc →
  (∀ asset shares rate,
     CURRENCY_RATES_EUR !! currency = Some rate →
     (shares ≤ 0)%Qc → (0 ≤ get_price w asset)%Qc →
     ∃ w', invest w uid asset shares currency
             = inr (Bought shares asset (shares * get_price w asset / rate)%Qc currency, w')
       ∧ position w' uid asset = Some (default 0%Qc (position w uid asset) + shares)%Qc
       ∧ balance_of w' uid currency
           = (balance_of w uid currency - shares * get_price w asset / rate)%Qc
       ∧ (length (logs w) < length (logs w'))%nat)
  ∧ (∀ stake sample,
       (stake ≤ 0)%Qc →
       ∃ fl w', gamble w uid currency stake sample = (fl, w')
         ∧ fl = (if ltb sample (lit 0.45) then Won (stake * Q2Qc 2)%Qc currency
                 else Lost stake currency)
         ∧ (length (logs w) < length (logs w'))%nat).
Proof.
  intros Hb. split.
  - intros asset shares rate Er Hs Hp.
    destruct (nonpos_passes (balance_of w uid currency)
                (shares * get_price w asset / rate)%Qc Hb) as [Hcheck Hdebit].
    { apply cost_nonpos; [done..|]. by eapply rates_positive. }
    pose proof (invest_bought _ _ _ _ _ _ Er Hcheck) as Hi.
    eexists. split; [exact Hi|].
    destruct (invest_effect_exact _ _ _ _ _ _ _ Hi) as (rate' & Er' & _ & Hbal & Hpos & _);
      [done|].
    assert (rate' = rate) as -> by congruence.
    split; [exact Hpos|]. split; [exact Hbal|].
    eapply Nat.le_lt_trans; [apply (change_balance_logs w uid currency)|].
    rewrite add_investment_logs. apply Nat.lt_succ_diag_r.
  - intros stake sample Hs.
    destruct (nonpos_passes (balance_of w uid currency) stake Hb Hs) as [Hcheck Hdebit].
    rewrite gamble_cases.
    rewrite Hcheck, Hdebit, (change_balance_accept _ _ _ _ Hdebit). cbn [snd].
    destruct (ltb sample (lit 0.45)); eexists _, _; (split; [reflexivity|]); (split; [done|]).
    + eapply Nat.lt_le_trans; [|apply change_balance_logs]. cbn. rewrite length_app. cbn. lia.
    + cbn. rewrite length_app. cbn. lia.
Qed.

(** C6, as the code has it: [invest] and [gamble] do not look at the sign of
    the amount and never report an invalid amount.  In whatever arithmetic
    the amounts are computed, a call that is refused ("Insufficient funds",
    or "Debit failed" for [gamble]) returns the store as it was.  With exact
    amounts and a balance that is not negative, a call of [invest] with a
    share count <= 0 (known pay currency, price not negative) is carried
    out: it adds the share count to the position, subtracts the cost, which
    is <= 0, from the balance, and writes to the log; a call of [gamble]
    with a stake <= 0 is carried out as well, up to the draw, and writes to
    the log. *)
Theorem nonpositive_amounts :
  (∀ (num : Type) (A : Arith num) (w : world num) (uid : nat) (currency : string),
     (∀ asset shares w',
        invest w uid asset shares currency = inr (InsufficientFunds, w') → w' = w)
     ∧ (∀ stake sample fl w',
          gamble w uid currency stake sample = (fl, w') →
          fl = InsufficientFunds ∨ fl = DebitFailed → w' = w))
  ∧ (∀ (w : world Qc) (uid : nat) (currency : string),
       (0 ≤ balance_of w uid currency)%Qc →
       (∀ asset shares rate,
          CURRENCY_RATES_EUR !! currency = Some rate →
          (shares ≤ 0)%Qc → (0 ≤ get_price w asset)%Qc →
          ∃ w', invest w uid asset shares currency
                  = inr (Bought shares asset (shares * get_price w asset / rate)%Qc
                           currency, w')
            ∧ position w' uid asset
                = Some (default 0%Qc (position w uid asset) + shares)%Qc
            ∧ balance_of w' uid currency
                = (balance_of w uid currency - shares * get_price w asset / rate)%Qc
            ∧ (length (logs w) < length (logs w'))%nat)
       ∧ (∀ stake sample,
            (stake ≤ 0)%Qc →
            ∃ fl w', gamble w uid currency stake sample = (fl, w')
              ∧ fl = (if ltb sample (lit 0.45) then Won (stake * Q2Qc 2)%Qc currency
                      else Lost stake currency)
              ∧ (length (logs w) < length (logs w'))%nat)).
Proof.
  split.
  - intros num A w uid currency. split.
    + intros asset shares w'. apply invest_refused_same.
    + intros stake sample fl w'. apply gamble_refused_same.
  - apply nonpositive_taken.
Qed.

Lemma nonpositive_amounts_witness :
  ∃ w', invest seeded_exact 1 "WRRC" (- Q2Qc 1)%Qc "LC"
          = inr (Bought (- Q2Qc 1)%Qc "WRRC"
                   (- Q2Qc 1 * get_price seeded_exact "WRRC" / Q2Qc 20.54)%Qc "LC", w')
    ∧ position w' 1 "WRRC" = Some (- Q2Qc 1)%Qc.
Proof.
  destruct (proj2 nonpositive_amounts seeded_exact 1 "LC") as [Hinv _].
  - vm_compute. discriminate.
  - destruct (Hinv "WRRC" (- Q2Qc 1)%Qc (Q2Qc 20.54)) as (w' & Hi & Hp & _).
    + vm_compute. reflexivity.
    + vm_compute. discriminate.
    + vm_compute. discriminate.
    + exists w'. split; [exact Hi|]. rewrite Hp. f_equal.
Defined.

(** The code does not keep C6 as stated.  On the seeded store, in binary64:
    buying -1 WRRC with LC is carried out, leaves a position of -1 share and
    a larger LC balance; buying 0 WRRC is carried out too and leaves a row
    of 0 shares and two more log rows; a wager of -5 KP that loses leaves
    55.0 KP where there were 50.0. *)
Lemma negative_amounts_taken :
  match invest seeded 1 "WRRC" (-1)%float "LC" with
  | inr (Bought _ _ _ _, w') =>
      position w' 1 "WRRC" = Some (-1)%float
      ∧ ltb (balance_of seeded 1 "LC") (balance_of w' 1 "LC") = true
  | _ => False
  end
  ∧ match invest seeded 1 "WRRC" 0%float "LC" with
    | inr (Bought _ _ _ _, w') =>
        position seeded 1 "WRRC" = None
        ∧ position w' 1 "WRRC" = Some 0%float
        ∧ length (logs w') = length (logs seeded) + 2
    | _ => False
    end
  ∧ match gamble seeded 1 "KP" (-5)%float (lit 0.9) with
    | (Lost _ _, w') =>
        balance_of seeded 1 "KP" = 50%float ∧ balance_of w' 1 "KP" = 55%float
    | _ => False
    end.
Proof. vm_compute. repeat split. Qed.

(** * Beyond the claims: the rest of the module *)

(** ** What the engine leaves alone *)

Section Frames.
Context {num : Type} `{Arith num}.
Local Open Scope num_scope.

Lemma rows_of_other (w w' : world num) u a u' :
  u' ≠ u →
  filter (λ r, ¬ holds u a r) (investments w')
    = filter (λ r, ¬ holds u a r) (investments w) →
  rows_of w' u' = rows_of w u'.
Proof.
  intros Hne E. unfold rows_of.
  apply (filter_other (holds u a)); [|done].
  intros r <- [Hu _]. done.
Qed.

Lemma add_investment_logs_eq (w : world num) u a shares :
  logs (add_investment w u a shares)
    = logs w ++ [mk_log "INFO" (MsgInvested u shares a)].
Proof. unfold add_investment. by destruct (list_find _ _) as [[i r]|]. Qed.

(* the effect of [cashout] on each table, without any assumption *)
Lemma cashout_frame (w : world num) uid today :
  let w' := (cashout w uid today).2 in
  prices w' = prices w ∧ asset_prices w' = asset_prices w
  ∧ (∃ l, logs w' = logs w ++ l)
  ∧ (∀ u, username <$> users w' !! u = username <$> users w !! u)
  ∧ (∀ u, u ≠ uid → users w' !! u = users w !! u)
  ∧ (∀ u c, u ≠ uid → balance_of w' u c = balance_of w u c)
  ∧ (∀ u, u ≠ uid → rows_of w' u = rows_of w u).
Proof.
  unfold cashout. destruct (decide _) as [E|E]; cbn [snd].
  { repeat split; try done. by exists []; rewrite app_nil_r. }
  split; [done|]. split; [done|]. split; [by eexists|].
  split; [|split; [|split]].
  - intros u. cbn. rewrite lookup_alter. case_decide; [|done].
    subst. by destruct (users w !! u).
  - intros u Hne. cbn. by rewrite lookup_alter_ne.
  - intros u c Hne. rewrite !balance_of_lookup. cbn.
    rewrite lookup_insert_ne; [done|]. intros [= ->]. done.
  - intros u Hne. unfold rows_of. cbn.
    induction (investments w) as [|r l IH]; [done|].
    rewrite (filter_cons (λ r, inv_user r ≠ uid)), (filter_cons (λ r, inv_user r = u)).
    destruct (decide (inv_user r = u)) as [Hr|Hr].
    + rewrite decide_True by congruence. rewrite filter_cons_True by done. by f_equal.
    + case_decide; [by rewrite filter_cons_False|done].
Qed.

Lemma step_frame (w : world num) (o : op num) :
  let w' := step w o in
  prices w' = prices w ∧ asset_prices w' = asset_prices w
  ∧ (∃ l, logs w' = logs w ++ l)
  ∧ (∀ u, username <$> users w' !! u = username <$> users w !! u)
  ∧ (∀ u, u ≠ op_user o → users w' !! u = users w !! u)
  ∧ (∀ u c, u ≠ op_user o → balance_of w' u c = balance_of w u c)
  ∧ (∀ u, u ≠ op_user o → rows_of w' u = rows_of w u).
Proof.
  assert (∀ (w0 : world num) u c d,
    let w1 := (change_balance w0 u c d).2 in
    prices w1 = prices w0 ∧ asset_prices w1 = asset_prices w0
    ∧ (∃ l, logs w1 = logs w0 ++ l) ∧ users w1 = users w0
    ∧ investments w1 = investments w0
    ∧ (∀ u' c', u' ≠ u → balance_of w1 u' c' = balance_of w0 u' c')) as Hcb.
  { intros w0 u c d. pose proof (change_balance_cases w0 u c d) as Hc.
    destruct (change_balance w0 u c d) as [[] w1]; cbn [snd].
    - destruct Hc as (_ & Hb & Hl & Hu & Hi & Hp & Ha).
      split; [done|]. split; [done|]. split; [by eexists|]. split; [done|].
      split; [done|]. intros u' c' Hne. eapply balance_of_insert_ne; [done|].
      intros [= ->]. done.
    - destruct Hc as [_ ->]. repeat split; try done. by exists []; rewrite app_nil_r. }
  destruct o as [u c d|u a n c|u t|u c s r]; cbn [step op_user].
  - destruct (Hcb w u c d) as (Hp & Ha & Hl & Hu & Hi & Hb).
    split; [done|]. split; [done|]. split; [done|]. rewrite Hu.
    split; [done|]. split; [done|]. split; [done|].
    intros u' _. unfold rows_of. by rewrite Hi.
  - unfold invest. destruct (CURRENCY_RATES_EUR !! c) as [rate|];
      [|repeat split; try done; by exists []; rewrite app_nil_r].
    destruct (ltb _ _);
      [repeat split; try done; by exists []; rewrite app_nil_r|].
    set (d := - (n * get_price w a / rate)).
    destruct (Hcb w u c d) as (Hp & Ha & [l Hl] & Hu & Hi & Hb).
    destruct (add_investment_spec (change_balance w u c d).2 u a n)
      as (_ & Hf & _ & Hb2 & Hu2 & Hp2 & Ha2).
    rewrite Hp2, Ha2, Hu2, Hu, add_investment_logs_eq, Hl.
    split; [done|]. split; [done|]. split; [by rewrite <- app_assoc; eexists|].
    split; [done|]. split; [done|]. split.
    + intros u' c' Hne. rewrite <- (Hb u' c' Hne). by apply balance_of_same.
    + intros u' Hne. rewrite (rows_of_other _ _ u a u' Hne Hf).
      unfold rows_of. by rewrite Hi.
  - apply cashout_frame.
  - rewrite gamble_cases.
    destruct (ltb _ _); [repeat split; try done; by exists []; rewrite app_nil_r|].
    destruct (ltb _ _); [repeat split; try done; by exists []; rewrite app_nil_r|].
    destruct (Hcb w u c (- s)) as (Hp & Ha & [l Hl] & Hu & Hi & Hb).
    destruct (ltb _ _); cbn [snd].
    + destruct (Hcb (change_balance w u c (- s)).2 u c (s * lit 2))
        as (Hp2 & Ha2 & [l2 Hl2] & Hu2 & Hi2 & Hb2).
      rewrite Hp2, Ha2, Hu2, Hl2, Hp, Ha, Hu, Hl.
      split; [done|]. split; [done|]. split; [by rewrite <- app_assoc; eexists|].
      split; [done|]. split; [done|]. split.
      * intros u' c' Hne. by rewrite (Hb2 u' c' Hne), (Hb u' c' Hne).
      * intros u' _. unfold rows_of. by rewrite Hi2, Hi.
    + rewrite Hp, Ha, Hu, Hl. split; [done|]. split; [done|]. split; [by eexists|].
      split; [done|]. split; [done|]. split; [done|].
      intros u' _. unfold rows_of. by rewrite Hi.
Qed.
End Frames.

Section RunFrames.
Context {num : Type} `{Arith num}.

Lemma run_frame (w : world num) (ops : list (op num)) :
  prices (run w ops) = prices w ∧ asset_prices (run w ops) = asset_prices w
  ∧ (∃ l, logs (run w ops) = logs w ++ l)
  ∧ (∀ u, username <$> users (run w ops) !! u = username <$> users w !! u).
Proof.
  revert w. induction ops as [|o ops IH]; intros w.
  { repeat split; try done. by exists []; rewrite app_nil_r. }
  cbn [run foldl]. destruct (IH (step w o)) as (Hp & Ha & [l Hl] & Hu).
  destruct (step_frame w o) as (Hp1 & Ha1 & [l1 Hl1] & Hu1 & _).
  unfold run in *. rewrite Hp, Ha, Hl, Hp1, Ha1, Hl1.
  split; [done|]. split; [done|]. split; [by rewrite <- app_assoc; eexists|].
  intros u. by rewrite Hu, Hu1.
Qed.

Lemma run_other_accounts (w : world num) (ops : list (op num)) (u : nat) :
  Forall (λ o, op_user o ≠ u) ops →
  users (run w ops) !! u = users w !! u
  ∧ (∀ c, balance_of (run w ops) u c = balance_of w u c)
  ∧ rows_of (run w ops) u = rows_of w u.
Proof.
  intros Hops. revert w. induction Hops as [|o ops Ho _ IH]; intros w; [done|].
  cbn [run foldl]. destruct (IH (step w o)) as (Hu & Hb & Hr).
  destruct (step_frame w o) as (_ & _ & _ & _ & Hu1 & Hb1 & Hr1).
  unfold run in *. rewrite Hu, Hr, Hu1, Hr1 by done.
  split; [done|]. split; [|done]. intros c. by rewrite Hb, Hb1.
Qed.

Lemma guarded_step_users (w : world num) (o : op num) :
  guarded o → users (step w o) = users w.
Proof.
  intros Ho. destruct o as [u c d|u a n c|u t|u c s r]; cbn [step]; [..|done|].
  - by destruct (change_balance_frame w u c d) as (_ & _ & _ & -> & _).
  - unfold invest. destruct (CURRENCY_RATES_EUR !! c) as [rate|]; [|done].
    destruct (ltb _ _); [done|].
    destruct (add_investment_spec
                (change_balance w u c (neg (div (mul n (get_price w a)) rate))).2 u a n)
      as (_ & _ & _ & _ & -> & _).
    by destruct (change_balance_frame w u c (neg (div (mul n (get_price w a)) rate)))
      as (_ & _ & _ & -> & _).
  - rewrite gamble_cases. repeat (destruct (ltb _ _); [done|]).
    destruct (change_balance_frame w u c (neg s)) as (_ & _ & _ & Hu & _).
    destruct (ltb _ _); cbn [snd]; [|done].
    by destruct (change_balance_frame (change_balance w u c (neg s)).2 u c
                   (mul s (lit 2))) as (_ & _ & _ & -> & _).
Qed.

Lemma guarded_run_users (w : world num) (ops : list (op num)) :
  Forall guarded ops → users (run w ops) = users w.
Proof.
  intros Hops. revert w. induction Hops as [|o ops Ho _ IH]; intros w; [done|].
  cbn [run foldl]. unfold run in IH. by rewrite IH, guarded_step_users.
Qed.
End RunFrames.

(** X1: the engine operations only read the price feed: whatever the
    sequence of [change_balance], [invest], [cashout] and [gamble] calls,
    the table [prices] and the dictionary [ASSET_PRICES] are as before, and
    so is the price of every asset. *)
Theorem engine_reads_prices {num : Type} {A : Arith num}
    (w : world num) (ops : list (op num)) :
  prices (run w ops) = prices w
  ∧ asset_prices (run w ops) = asset_prices w
  ∧ ∀ asset, get_price (run w ops) asset = get_price w asset.
Proof.
  destruct (run_frame w ops) as (Hp & Ha & _).
  split; [done|]. split; [done|]. intros asset. unfold get_price. by rewrite Hp, Ha.
Qed.

(** X2: the log is append-only: after any sequence of engine operations
    the rows that were in [logs] are still there, in the same order, at the
    head of the table. *)
Theorem log_append_only {num : Type} {A : Arith num}
    (w : world num) (ops : list (op num)) :
  logs w `prefix_of` logs (run w ops).
Proof. destruct (run_frame w ops) as (_ & _ & [l Hl] & _). by exists l. Qed.

(** X3: the engine operations never create, delete or rename a user: after
    any sequence of them the ids of [users] and the name of each are as
    before; and as long as no [cashout] is among them the whole table,
    dates of last cashout included, is unchanged. *)
Theorem users_kept {num : Type} {A : Arith num}
    (w : world num) (ops : list (op num)) :
  dom (users (run w ops)) = dom (users w)
  ∧ (∀ u, username <$> users (run w ops) !! u = username <$> users w !! u)
  ∧ (Forall guarded ops → users (run w ops) = users w).
Proof.
  destruct (run_frame w ops) as (_ & _ & _ & Hu).
  split; [|split; [done | apply guarded_run_users]].
  apply set_eq. intros u. rewrite !elem_of_dom, <- !(fmap_is_Some username).
  by rewrite Hu.
Qed.

Lemma users_kept_witness :
  users (run seeded [Invest 1 "WRRC" 1%float "LC"; Wager 2 "KP" 5%float (lit 0.7)])
  = users seeded.
Proof.
  apply (proj2 (proj2 (users_kept seeded
           [Invest 1 "WRRC" 1%float "LC"; Wager 2 "KP" 5%float (lit 0.7)]))).
  repeat constructor.
Defined.

(** X4: accounts are isolated: a sequence of engine operations none of
    which is run for account [u] leaves the row of [u] in [users], every
    balance of [u] and every investment row of [u] as they were. *)
Theorem account_isolation {num : Type} {A : Arith num}
    (w : world num) (ops : list (op num)) (u : nat) :
  Forall (λ o, op_user o ≠ u) ops →
  users (run w ops) !! u = users w !! u
  ∧ (∀ c, balance_of (run w ops) u c = balance_of w u c)
  ∧ rows_of (run w ops) u = rows_of w u.
Proof. apply run_other_accounts. Qed.

Lemma account_isolation_witness :
  let ops := [Invest 1 "WRRC" 1%float "LC"; Cashout 1 "2024-05-01";
              Wager 1 "KP" 5%float (lit 0.2)] in
  balance_of (run seeded ops) 2 "WRR" = balance_of seeded 2 "WRR".
Proof.
  intros ops.
  refine (proj1 (proj2 (account_isolation seeded ops 2 _)) "WRR").
  repeat constructor; discriminate.
Defined.

(** ** The gate of [cashout] *)

Section Gate.
Context {num : Type} `{Arith num}.

Lemma cashout_goes_through (w : world num) uid today :
  last_cashout_of w uid ≠ Some today → (cashout w uid today).1.1 = true.
Proof.
  unfold cashout. fold (last_cashout_of w uid). by destruct (decide _).
Qed.

Lemma cashout_gate_iff (w : world num) uid today :
  (cashout w uid today).1.1 = false ↔ last_cashout_of w uid = Some today.
Proof.
  split.
  - intros Hc. destruct (decide (last_cashout_of w uid = Some today)) as [|Hne]; [done|].
    by rewrite (cashout_goes_through _ _ _ Hne) in Hc.
  - intros E. by rewrite (cashout_refused _ _ _ E).
Qed.

Lemma cashout_stamps (w : world num) uid today :
  is_Some (users w !! uid) → (cashout w uid today).1.1 = true →
  last_cashout_of (cashout w uid today).2 uid = Some today.
Proof.
  intros Hu Hc. destruct (cashout w uid today) as [[ok msg] w'] eqn:E.
  cbn in Hc. subst ok. cbn [snd].
  eapply last_cashout_of_alter; [done|]. by eapply cashout_done_users.
Qed.

Lemma cashout_no_row (w : world num) uid today :
  users w !! uid = None →
  (cashout w uid today).1.1 = true ∧ users (cashout w uid today).2 = users w.
Proof.
  intros Hu. unfold cashout. rewrite Hu. destruct (decide _); [done|].
  cbn. split; [done|]. apply map_eq. intros u.
  destruct (decide (u = uid)) as [->|Hne].
  - by rewrite lookup_alter_eq, Hu.
  - by rewrite lookup_alter_ne.
Qed.
End Gate.



(** X6: for an id that has no row in [users], [cashout] is never refused
    and records no date: it goes through, leaves [users] as it was, and goes
    through again on the same day. *)
Theorem cashout_without_user {num : Type} {A : Arith num}
    (w : world num) (uid : nat) (today : string) :
  users w !! uid = None →
  (cashout w uid today).1.1 = true
  ∧ users (cashout w uid today).2 = users w
  ∧ (cashout (cashout w uid today).2 uid today).1.1 = true.
Proof.
  intros Hu. destruct (cashout_no_row w uid today Hu) as [Hc Hus].
  split; [done|]. split; [done|].
  apply cashout_no_row. by rewrite Hus.
Qed.

Lemma cashout_without_user_witness :
  (cashout (cashout seeded 7 "2024-05-01").2 7 "2024-05-01").1.1 = true.
Proof.
  refine (proj2 (proj2 (cashout_without_user seeded 7 "2024-05-01" _))).
  vm_compute. reflexivity.
Defined.

(** ** Investment rows and the dictionary of positions *)

Section Positions.
Context {num : Type} `{Arith num}.

Lemma unique_rows_filter (P : inv_row num → Prop) `{!∀ r, Decision (P r)} l :
  unique_rows l → unique_rows (filter P l).
Proof.
  unfold unique_rows. induction l as [|r l IH]; [done|].
  rewrite fmap_cons, NoDup_cons. intros [Hr Hl].
  rewrite filter_cons. case_decide; [|by apply IH].
  rewrite fmap_cons, NoDup_cons. split; [|by apply IH].
  intros (r' & E & [_ Hin]%list_elem_of_filter)%list_elem_of_fmap.
  apply Hr, list_elem_of_fmap. eauto.
Qed.

Lemma unique_rows_add (w : world num) u a shares :
  unique_rows (investments w) → unique_rows (investments (add_investment w u a shares)).
Proof.
  unfold unique_rows, add_investment.
  destruct (list_find (holds u a) (investments w)) as [[i r]|] eqn:Ef; cbn.
  - apply list_find_Some in Ef as (Hi & _ & _).
    rewrite list_fmap_insert, list_insert_id; [done|].
    by rewrite list_lookup_fmap, Hi.
  - apply list_find_None in Ef. rewrite fmap_app. cbn. intros Hl.
    apply NoDup_app. split; [done|]. split; [|apply NoDup_singleton].
    intros k (r & Hk & Hr)%list_elem_of_fmap Hk2%list_elem_of_singleton.
    subst k. injection Hk2 as Hu Ha.
    by apply (proj1 (Forall_forall _ _) Ef r Hr).
Qed.

Lemma unique_rows_step (w : world num) o :
  unique_rows (investments w) → unique_rows (investments (step w o)).
Proof.
  intros Hw. destruct o as [u c d|u a n c|u t|u c s r]; cbn [step].
  - by destruct (change_balance_frame w u c d) as (_ & _ & _ & _ & -> & _).
  - unfold invest. destruct (CURRENCY_RATES_EUR !! c) as [rate|]; [|done].
    destruct (ltb _ _); [done|]. apply unique_rows_add.
    by destruct (change_balance_frame w u c (neg (div (mul n (get_price w a)) rate)))
      as (_ & _ & _ & _ & -> & _).
  - unfold cashout. destruct (decide _); [done|]. cbn.
    by apply unique_rows_filter.
  - rewrite gamble_cases. repeat (destruct (ltb _ _); [done|]).
    destruct (change_balance_frame w u c (neg s)) as (_ & _ & _ & _ & Hi & _).
    destruct (ltb _ _); cbn [snd]; [|by rewrite Hi].
    destruct (change_balance_frame (change_balance w u c (neg s)).2 u c (mul s (lit 2)))
      as (_ & _ & _ & _ & -> & _). by rewrite Hi.
Qed.

Lemma unique_rows_run (w : world num) ops :
  unique_rows (investments w) → unique_rows (investments (run w ops)).
Proof.
  revert w. induction ops as [|o ops IH]; intros w Hw; [done|].
  cbn [run foldl]. apply IH. by apply unique_rows_step.
Qed.

(* the dictionary built from the rows, against the first matching row *)
Lemma rows_dict_lookup (l : list (inv_row num)) (d0 : gmap string num) u a :
  unique_rows l →
  foldl (λ d r, <[inv_asset r := inv_shares r]> d) d0 (filter (λ r, inv_user r = u) l) !! a
  = match head (filter (holds u a) l) with
    | Some r => Some (inv_shares r)
    | None => d0 !! a
    end.
Proof.
  unfold unique_rows. revert d0. induction l as [|r l IH]; intros d0; [done|].
  rewrite fmap_cons, NoDup_cons. intros [Hr Hl].
  rewrite (filter_cons (λ r, inv_user r = u)), (filter_cons (holds u a)).
  destruct (decide (inv_user r = u)) as [Hu|Hu].
  - cbn [foldl]. rewrite IH by done.
    destruct (decide (holds u a r)) as [Hh|Hh].
    + cbn [head]. destruct (head (filter (holds u a) l)) as [r'|] eqn:Eh.
      * exfalso. apply Hr. apply list_elem_of_fmap. exists r'.
        apply head_Some_elem_of, list_elem_of_filter in Eh as [[Hu' Ha'] Hin].
        destruct Hh as [Hu'' Ha'']. split; [|done]. cbn. congruence.
      * destruct Hh as [_ <-]. by rewrite lookup_insert_eq.
    + destruct (head (filter (holds u a) l)); [done|].
      rewrite lookup_insert_ne; [done|]. intros Ha. apply Hh. by split.
  - rewrite decide_False by (intros [? _]; done). by apply IH.
Qed.
End Positions.



Section Clearing.
Context {num : Type} `{Arith num}.

Lemma filter_user_cleared (l : list (inv_row num)) u u' :
  u' ≠ u →
  filter (λ r, inv_user r = u') (filter (λ r, inv_user r ≠ u) l)
  = filter (λ r, inv_user r = u') l.
Proof.
  intros Hne. induction l as [|r l IH]; [done|].
  rewrite (filter_cons (λ r, inv_user r ≠ u)), (filter_cons (λ r, inv_user r = u')).
  destruct (decide (inv_user r = u')) as [Hr|Hr].
  - rewrite decide_True by congruence. rewrite filter_cons_True by done. by f_equal.
  - case_decide; [by rewrite filter_cons_False|done].
Qed.

Lemma cashout_clears (w : world num) u today :
  last_cashout_of w u ≠ Some today →
  investments (cashout w u today).2 = investments (clear_investments w u).
Proof.
  intros Hne. unfold cashout. fold (last_cashout_of w u).
  by destruct (decide _).
Qed.
End Clearing.

(** X8: [clear_investments] deletes exactly the rows of the account: none
    of its rows is left and its dictionary of positions is empty, the rows
    of every other account are as before, in the same order, and this is
    the deletion that a [cashout] which goes through performs. *)
Theorem clear_investments_exact {num : Type} {A : Arith num}
    (w : world num) (u : nat) :
  rows_of (clear_investments w u) u = []
  ∧ get_investments (clear_investments w u) u = ∅
  ∧ (∀ u', u' ≠ u → rows_of (clear_investments w u) u' = rows_of w u')
  ∧ (∀ today, last_cashout_of w u ≠ Some today →
       investments (cashout w u today).2 = investments (clear_investments w u)).
Proof.
  assert (rows_of (clear_investments w u) u = []) as Hr by apply rows_of_cleared.
  split; [done|]. split; [|split].
  - unfold get_investments. fold (rows_of (clear_investments w u) u). by rewrite Hr.
  - intros u' Hne. by apply filter_user_cleared.
  - intros today. apply cashout_clears.
Qed.

(** X9: a price written by [update_price] is the one [get_price] reads back
    for that asset, whatever [ASSET_PRICES] says; the price of every other
    asset is as before; and of two writes for the same asset the later one
    replaces the earlier. *)
Theorem update_price_read_back {num : Type} {A : Arith num}
    (w : world num) (asset : string) (p q : num) :
  get_price (update_price w asset p) asset = p
  ∧ (∀ other, other ≠ asset →
       get_price (update_price w asset p) other = get_price w other)
  ∧ update_price (update_price w asset p) asset q = update_price w asset q.
Proof.
  split; [|split].
  - unfold get_price, update_price. cbn. by rewrite lookup_insert_eq.
  - intros other Hne. unfold get_price, update_price. cbn.
    by rewrite lookup_insert_ne.
  - unfold update_price, set_prices. cbn. by rewrite insert_insert_eq.
Qed.

Section Currencies.
Context {num : Type} `{Arith num}.

Lemma rates_keys (c : string) :
  is_Some (CURRENCY_RATES_EUR (num:=num) !! c) ↔ c ∈ ["WRR"; "LC"; "KP"].
Proof.
  unfold CURRENCY_RATES_EUR. rewrite !lookup_insert_is_Some, lookup_empty.
  rewrite !elem_of_cons, elem_of_nil. split.
  - intros [->|[_ [->|[_ [->|[_ []%is_Some_None]]]]]]; auto.
  - intros [->|[->|[->|[]]]]; [by left|right; split; [done|by left]|].
    right. split; [done|]. right. split; [done|]. by left.
Qed.
End Currencies.



(** ** Users *)

Section Users.
Context {num : Type} `{Arith num}.

Lemma lastrowid_fresh (us : gmap nat user_row) : us !! lastrowid us = None.
Proof.
  destruct (us !! lastrowid us) as [r|] eqn:E; [|done]. exfalso.
  assert (lastrowid us ∈ elements (dom us)) as Hin
    by (apply elem_of_elements, elem_of_dom; eauto).
  apply max_list_elem_of_le in Hin. unfold lastrowid in Hin. lia.
Qed.

(* the rows of zero amount that the loop over the currencies inserts *)
Lemma zero_rows (bs : gmap (nat * string) num) (uid : nat) (k : nat * string) :
  map_fold (λ c _ acc, <[(uid, c) := lit 0]> acc) bs (CURRENCY_RATES_EUR (num:=num)) !! k
  = if decide (k.1 = uid ∧ is_Some (CURRENCY_RATES_EUR (num:=num) !! k.2))
    then Some (lit 0) else bs !! k.
Proof.
  generalize (CURRENCY_RATES_EUR (num:=num)). intros rates. revert rates.
  apply (map_fold_weak_ind
    (λ acc (m : gmap string num),
       acc !! k = if decide (k.1 = uid ∧ is_Some (m !! k.2)) then Some (lit 0) else bs !! k)).
  - rewrite decide_False; [done|]. intros [_ Hs]. rewrite lookup_empty in Hs.
    by apply is_Some_None in Hs.
  - intros c x m acc Hc IH. destruct (decide (k = (uid, c))) as [->|Hne].
    + rewrite lookup_insert_eq. cbn. rewrite decide_True; [done|].
      split; [done|]. rewrite lookup_insert_eq. by eexists.
    + rewrite lookup_insert_ne by done. rewrite IH.
      destruct k as [u c']. cbn in *.
      destruct (decide (u = uid ∧ is_Some (m !! c'))) as [[-> Hs]|Hn].
      * rewrite decide_True; [done|]. split; [done|].
        rewrite lookup_insert_ne; [done|]. congruence.
      * rewrite decide_False; [done|]. intros [-> Hs]. apply Hn. split; [done|].
        rewrite lookup_insert_ne in Hs; [done|]. congruence.
Qed.

Lemma create_user_refused (w : world num) name :
  name_taken w name ∨ seed_conflict w → create_user w name = (false, w).
Proof.
  unfold create_user, name_taken, seed_conflict. intros [Ht|Hc].
  - by rewrite decide_True.
  - destruct (decide (map_Exists _ (users w))); [done|]. by rewrite decide_True.
Qed.

Lemma create_user_done (w : world num) name :
  ¬ name_taken w name → ¬ seed_conflict w →
  let uid := lastrowid (users w) in
  ∃ w', create_user w name = (true, w')
    ∧ users w' = <[uid := mk_user name None]> (users w)
    ∧ balances w' !! (uid, "WRR") = Some (lit 10)
    ∧ balances w' !! (uid, "LC") = Some (lit 25)
    ∧ balances w' !! (uid, "KP") = Some (lit 50)
    ∧ (∀ u c, u ≠ uid → balances w' !! (u, c) = balances w !! (u, c))
    ∧ logs w' = logs w ++ [mk_log "INFO" (MsgUserCreated name)]
    ∧ investments w' = investments w
    ∧ prices w' = prices w ∧ asset_prices w' = asset_prices w.
Proof.
  intros Ht Hc uid. unfold create_user, name_taken, seed_conflict in *.
  rewrite decide_False by done. rewrite decide_False by done.
  eexists. split; [reflexivity|]. cbn. fold uid.
  split; [done|]. split; [|split; [|split; [|split; [|done]]]].
  - rewrite lookup_insert_ne by (intros [= ?]; done).
    rewrite lookup_insert_ne by (intros [= ?]; done). by rewrite lookup_insert_eq.
  - rewrite lookup_insert_ne by (intros [= ?]; done). by rewrite lookup_insert_eq.
  - by rewrite lookup_insert_eq.
  - intros u c Hne. rewrite !lookup_insert_ne by (intros [= ? ?]; done).
    rewrite zero_rows. cbn. rewrite decide_False; [done|]. by intros [? _].
Qed.

Lemma create_user_cases (w w' : world num) name ok :
  create_user w name = (ok, w') →
  if ok then ¬ name_taken w name ∧ ¬ seed_conflict w
  else (name_taken w name ∨ seed_conflict w) ∧ w' = w.
Proof.
  intros E. destruct (decide (name_taken w name)) as [Ht|Ht].
  { rewrite create_user_refused in E by auto. injection E as <- <-. auto. }
  destruct (decide (seed_conflict w)) as [Hc|Hc].
  { rewrite create_user_refused in E by auto. injection E as <- <-. auto. }
  destruct (create_user_done w name Ht Hc) as (w1 & E1 & _).
  rewrite E1 in E. injection E as <- <-. done.
Qed.
End Users.

Section Lookup.
Context {num : Type} `{Arith num}.

Lemma get_user_None (w : world num) name :
  get_user_by_username w name = None ↔ ¬ name_taken w name.
Proof.
  unfold get_user_by_username, name_taken. rewrite head_None.
  rewrite map_Exists_lookup. split.
  - intros Hf (i & r & Hi & Hr).
    apply (filter_nil_not_elem_of _ _ (i, r) Hf); [done|].
    by apply elem_of_map_to_list.
  - intros Hn. apply filter_none. apply Forall_forall. intros [i r] Hin Hr.
    apply Hn. exists i, r. split; [by apply elem_of_map_to_list|done].
Qed.

Lemma get_user_Some (w : world num) name i r :
  unique_usernames (users w) →
  get_user_by_username w name = Some (i, r) ↔ users w !! i = Some r ∧ username r = name.
Proof.
  intros Hu. unfold get_user_by_username. split.
  - intros Hh. apply head_Some_elem_of, list_elem_of_filter in Hh as [Hr Hin].
    split; [by apply elem_of_map_to_list|done].
  - intros [Hi Hr].
    destruct (head (filter (λ ir, username ir.2 = name) (map_to_list (users w))))
      as [[j rj]|] eqn:Eh.
    + pose proof Eh as Hj. apply head_Some_elem_of, list_elem_of_filter in Hj as [Hrj Hin].
      apply elem_of_map_to_list in Hin. cbn in Hrj.
      assert (j = i) as -> by (apply (Hu j i rj r); congruence).
      congruence.
    + apply head_None in Eh. exfalso.
      apply (filter_nil_not_elem_of _ _ (i, r) Eh); [done|].
      by apply elem_of_map_to_list.
Qed.

Lemma unique_usernames_insert (us : gmap nat user_row) uid row :
  unique_usernames us → us !! uid = None →
  (∀ i r, us !! i = Some r → username r ≠ username row) →
  unique_usernames (<[uid := row]> us).
Proof.
  intros Hu Hfresh Hnew i j ri rj Hi Hj E.
  apply lookup_insert_Some in Hi as [[<- <-]|[Hni Hi]];
    apply lookup_insert_Some in Hj as [[<- <-]|[Hnj Hj]]; [done|..].
  - by destruct (Hnew j rj Hj).
  - by destruct (Hnew i ri Hi).
  - by apply (Hu i j ri rj).
Qed.

Lemma unique_usernames_NoDup (us : gmap nat user_row) :
  NoDup ((λ ir, username ir.2) <$> map_to_list us) → unique_usernames us.
Proof.
  intros Hnd i j ri rj Hi%elem_of_map_to_list Hj%elem_of_map_to_list E.
  assert (∀ (l : list (nat * user_row)) x y,
    NoDup ((λ ir, username ir.2) <$> l) → x ∈ l → y ∈ l →
    username x.2 = username y.2 → x = y) as Hinj.
  { induction l as [|z l IH]; intros x y Hl Hx Hy Exy; [by apply elem_of_nil in Hx|].
    rewrite fmap_cons in Hl. apply NoDup_cons in Hl as [Hz Hl].
    apply elem_of_cons in Hx as [->|Hx]; apply elem_of_cons in Hy as [->|Hy]; [done|..].
    - destruct Hz. apply list_elem_of_fmap. exists y. by rewrite Exy.
    - destruct Hz. apply list_elem_of_fmap. exists x. by rewrite <- Exy.
    - by apply IH. }
  by injection (Hinj _ (i, ri) (j, rj) Hnd Hi Hj E).
Qed.

Lemma unique_usernames_names (us us' : gmap nat user_row) :
  (∀ u, username <$> us' !! u = username <$> us !! u) →
  unique_usernames us → unique_usernames us'.
Proof.
  intros Hn Hu i j ri rj Hi Hj E.
  pose proof (Hn i) as Hni. pose proof (Hn j) as Hnj. rewrite Hi in Hni. rewrite Hj in Hnj.
  destruct (us !! i) as [ri'|] eqn:Ei; [|done]. destruct (us !! j) as [rj'|] eqn:Ej; [|done].
  cbn in Hni, Hnj. apply (Hu i j ri' rj'); [done..|]. congruence.
Qed.
End Lookup.

(** X11: a [create_user] that succeeds gives the new user an id that no
    row of [users] had, with no date of last cashout, and the balances 10.0
    WRR, 25.0 LC and 50.0 KP; the rows and balances of every other account,
    the investments and the prices are as before, and one row is appended
    to the log. *)
Theorem create_user_seeds {num : Type} {A : Arith num}
    (w w' : world num) (name : string) :
  create_user w name = (true, w') →
  let uid := lastrowid (users w) in
  users w !! uid = None
  ∧ users w' = <[uid := mk_user name None]> (users w)
  ∧ balance_of w' uid "WRR" = lit 10
  ∧ balance_of w' uid "LC" = lit 25
  ∧ balance_of w' uid "KP" = lit 50
  ∧ (∀ u c, u ≠ uid → balance_of w' u c = balance_of w u c)
  ∧ investments w' = investments w
  ∧ prices w' = prices w
  ∧ logs w' = logs w ++ [mk_log "INFO" (MsgUserCreated name)].
Proof.
  intros E uid. pose proof (create_user_cases _ _ _ _ E) as [Ht Hc].
  destruct (create_user_done w name Ht Hc)
    as (w1 & E1 & Hu & Hw & Hl & Hk & Ho & Hlog & Hi & Hp & _).
  rewrite E1 in E. injection E as <-.
  split; [apply lastrowid_fresh|]. split; [done|].
  rewrite !balance_of_lookup. fold uid in Hw, Hl, Hk. rewrite Hw, Hl, Hk.
  split; [done|]. split; [done|]. split; [done|].
  split; [|done]. intros u c Hne. by rewrite !balance_of_lookup, Ho.
Qed.

Lemma create_user_seeds_witness :
  let w' := (create_user seeded "carol").2 in
  let uid := lastrowid (users seeded) in
  uid = 3
  ∧ (balance_of w' uid "WRR", balance_of w' uid "LC", balance_of w' uid "KP")
    = (10%float, 25%float, 50%float).
Proof.
  intros w' uid.
  destruct (create_user_seeds seeded w' "carol") as (_ & _ & Hw & Hl & Hk & _).
  - vm_compute. reflexivity.
  - split; [vm_compute; reflexivity|]. fold uid in Hw, Hl, Hk.
    rewrite Hw, Hl, Hk. vm_compute. reflexivity.
Defined.

(** X12: user names are unique: [create_user] with a name that a row of
    [users] already has returns [False]; whenever it returns [False] the
    store is as it was; and after a [create_user] that succeeded, a second
    one with the same name is refused. *)
Theorem create_user_name_taken {num : Type} {A : Arith num}
    (w : world num) (name : string) :
  (name_taken w name → create_user w name = (false, w))
  ∧ (∀ w', create_user w name = (false, w') → w' = w)
  ∧ (∀ w1, create_user w name = (true, w1) → create_user w1 name = (false, w1)).
Proof.
  split; [|split].
  - intros Ht. apply create_user_refused. by left.
  - intros w' E. by destruct (create_user_cases _ _ _ _ E) as [_ ->].
  - intros w1 E. apply create_user_refused. left.
    pose proof (create_user_cases _ _ _ _ E) as [Ht Hc].
    destruct (create_user_done w name Ht Hc) as (w2 & E2 & Hu & _).
    rewrite E2 in E. injection E as <-.
    unfold name_taken. rewrite Hu.
    by apply map_Exists_insert_2_1.
Qed.

(** X13: the names in [users] stay unique and [get_user_by_username] finds
    what [create_user] wrote: if no two rows share a name, then after a
    [create_user] that succeeded no two rows share a name, the new name is
    found with the new id and no date of last cashout, every other name is
    found, or not found, as before, and the names remain unique under any
    sequence of engine operations. *)
Theorem create_user_then_lookup {num : Type} {A : Arith num}
    (w w' : world num) (name : string) :
  unique_usernames (users w) →
  create_user w name = (true, w') →
  unique_usernames (users w')
  ∧ get_user_by_username w' name = Some (lastrowid (users w), mk_user name None)
  ∧ (∀ other, other ≠ name →
       get_user_by_username w' other = get_user_by_username w other)
  ∧ (∀ ops, unique_usernames (users (run w' ops))).
Proof.
  intros Hu E. pose proof (create_user_cases _ _ _ _ E) as [Ht Hc].
  destruct (create_user_done w name Ht Hc) as (w1 & E1 & Hus & _).
  rewrite E1 in E. injection E as <-.
  assert (unique_usernames (users w1)) as Hu1.
  { rewrite Hus. apply unique_usernames_insert; [done|apply lastrowid_fresh|].
    intros i r Hi Hr. apply Ht. unfold name_taken. rewrite map_Exists_lookup. eauto. }
  split; [done|]. split; [|split].
  - apply get_user_Some; [done|]. by rewrite Hus, lookup_insert_eq.
  - intros other Hne. apply option_eq. intros [i r].
    rewrite !get_user_Some by done. rewrite Hus, lookup_insert_Some. split.
    + intros [[[<- <-]|[_ Hi]] Hr]; [done|by split].
    + intros [Hi Hr]. split; [|done]. right. split; [|done].
      intros <-. by rewrite lastrowid_fresh in Hi.
  - intros ops. eapply unique_usernames_names; [|exact Hu1].
    by destruct (run_frame w1 ops) as (_ & _ & _ & Hn).
Qed.

Lemma create_user_then_lookup_witness :
  get_user_by_username (create_user seeded "carol").2 "carol"
  = Some (3, mk_user "carol" None).
Proof.
  refine (proj1 (proj2 (create_user_then_lookup seeded (create_user seeded "carol").2
                          "carol" _ _))).
  - apply unique_usernames_NoDup. apply (bool_decide_unpack _). vm_compute. reflexivity.
  - vm_compute. reflexivity.
Defined.

(** ** Start-up *)

Section StartUp.
Context {num : Type} `{Arith num}.

Lemma set_prices_same (w : world num) : set_prices w (prices w) = w.
Proof. by destruct w. Qed.

Lemma union_absorb (m1 m2 : gmap string num) : m1 ∪ (m1 ∪ m2) = m1 ∪ m2.
Proof.
  apply map_eq. intros a. rewrite !lookup_union.
  by destruct (m1 !! a), (m2 !! a).
Qed.

Lemma init_db_again (w : world num) : init_db (init_db w) = init_db w.
Proof. unfold init_db, set_prices. cbn. by rewrite union_absorb. Qed.

Lemma lastrowid_empty : lastrowid ∅ = 1.
Proof. unfold lastrowid. by rewrite dom_empty_L, elements_empty. Qed.

Lemma lastrowid_one (r : user_row) : lastrowid (<[1 := r]> ∅) = 2.
Proof.
  unfold lastrowid. rewrite insert_empty, dom_singleton_L, elements_singleton. done.
Qed.
End StartUp.

(** X14: [init_db] makes the table [prices] mirror [ASSET_PRICES]: for
    every asset of the dictionary [get_price] then returns the dictionary's
    price, whatever row the table had; the rows of other assets are kept;
    and running it a second time changes nothing. *)
Theorem init_db_mirrors {num : Type} {A : Arith num} (w : world num) :
  (∀ asset p, asset_prices w !! asset = Some p → get_price (init_db w) asset = p)
  ∧ (∀ asset, asset_prices w !! asset = None →
       prices (init_db w) !! asset = prices w !! asset)
  ∧ init_db (init_db w) = init_db w.
Proof.
  split; [|split; [|apply init_db_again]].
  - intros asset p Hp. unfold get_price, init_db. cbn.
    by rewrite (lookup_union_Some_l _ _ _ _ Hp).
  - intros asset Hn. unfold init_db. cbn. by rewrite lookup_union_r.
Qed.

(** X15: on a database with no user and no balance row, [bootstrap] creates
    exactly the users alice, with id 1, and bob, with id 2, each with 10.0
    WRR, 25.0 LC and 50.0 KP; and running [bootstrap] again on the result
    changes nothing. *)
Theorem bootstrap_fresh {num : Type} {A : Arith num} (w : world num) :
  users w = ∅ → balances w = ∅ →
  users (bootstrap w) = <[2 := mk_user "bob" None]> (<[1 := mk_user "alice" None]> ∅)
  ∧ (∀ u, u = 1 ∨ u = 2 →
       balance_of (bootstrap w) u "WRR" = lit 10
       ∧ balance_of (bootstrap w) u "LC" = lit 25
       ∧ balance_of (bootstrap w) u "KP" = lit 50)
  ∧ bootstrap (bootstrap w) = bootstrap w.
Proof.
  intros Hu Hb.
  assert (users (init_db w) = ∅) as Hu0 by done.
  assert (balances (init_db w) = ∅) as Hb0 by done.
  destruct (create_user_done (init_db w) "alice") as
    (w1 & E1 & Hu1 & Hw1 & Hl1 & Hk1 & Ho1 & _ & _ & Hp1 & Ha1).
  { unfold name_taken. rewrite Hu0. apply map_Exists_empty. }
  { unfold seed_conflict. intros (c & x & _ & Hs)%map_Exists_lookup.
    rewrite Hb0, lookup_empty in Hs. by apply is_Some_None in Hs. }
  rewrite Hu0, lastrowid_empty in Hu1, Hw1, Hl1, Hk1, Ho1.
  destruct (create_user_done w1 "bob") as
    (w2 & E2 & Hu2 & Hw2 & Hl2 & Hk2 & Ho2 & _ & _ & Hp2 & Ha2).
  { unfold name_taken. rewrite Hu1. intros (i & r & Hi & Hr)%map_Exists_lookup.
    apply lookup_insert_Some in Hi as [[_ <-]|[_ Hi]]; [done|].
    by rewrite lookup_empty in Hi. }
  { unfold seed_conflict. rewrite Hu1, lastrowid_one.
    intros (c & x & _ & Hs)%map_Exists_lookup.
    rewrite Ho1, Hb0, lookup_empty in Hs by done. by apply is_Some_None in Hs. }
  rewrite Hu1, lastrowid_one in Hu2, Hw2, Hl2, Hk2, Ho2.
  assert (bootstrap w = log w2 "INFO" (MsgText "Created demo users alice/bob")) as Hboot.
  { unfold bootstrap. rewrite decide_True by done.
    rewrite E1. cbn [snd]. by rewrite E2. }
  rewrite Hboot. split; [done|]. split.
  - intros u [->| ->]; rewrite !balance_of_lookup; cbn.
    + by rewrite !Ho2, Hw1, Hl1, Hk1.
    + by rewrite Hw2, Hl2, Hk2.
  - set (W := log w2 "INFO" (MsgText "Created demo users alice/bob")).
    assert (asset_prices W ∪ prices W = prices W) as HpW.
    { subst W. cbn. rewrite Ha2, Ha1, Hp2, Hp1. cbn. apply union_absorb. }
    unfold bootstrap. rewrite decide_False.
    2:{ subst W. cbn. rewrite Hu2. apply insert_non_empty. }
    unfold init_db. rewrite HpW. apply set_prices_same.
Qed.

Lemma bootstrap_fresh_witness :
  bootstrap (bootstrap (empty_db (num:=float))) = bootstrap empty_db.
Proof.
  refine (proj2 (proj2 (bootstrap_fresh empty_db _ _))); reflexivity.
Defined.

(** ** The market tick *)

Section Tick.
Context {num : Type} `{Arith num}.
Variable round4 : num → num.
Variable uniform : string → num.

Lemma pymax_floor (x y : num) : pymax x y = x ∨ ltb x (pymax x y) = true.
Proof. unfold pymax. destruct (ltb x y) eqn:E; [right|left]; done. Qed.

Lemma tick_fold (l : list string) (w : world num) :
  NoDup l →
  let w' := foldl (tick_asset round4 uniform) w l in
  (∀ a p, a ∈ l → asset_prices w !! a = Some p →
     asset_prices w' !! a = Some (tick_price round4 p (uniform a))
     ∧ prices w' !! a = Some (tick_price round4 p (uniform a)))
  ∧ (∀ a, a ∉ l ∨ asset_prices w !! a = None →
       asset_prices w' !! a = asset_prices w !! a ∧ prices w' !! a = prices w !! a)
  ∧ users w' = users w ∧ balances w' = balances w
  ∧ investments w' = investments w ∧ logs w' = logs w.
Proof.
  intros Hl. revert w. induction Hl as [|a0 l Ha0 Hl IH]; intros w.
  { cbn. split; [intros a p Hin; by apply elem_of_nil in Hin|]. done. }
  cbn [foldl]. destruct (IH (tick_asset round4 uniform w a0)) as (Hin & Hout & Hu & Hb & Hi & Hlog).
  assert (users (tick_asset round4 uniform w a0) = users w
          ∧ balances (tick_asset round4 uniform w a0) = balances w
          ∧ investments (tick_asset round4 uniform w a0) = investments w
          ∧ logs (tick_asset round4 uniform w a0) = logs w) as (Hu0 & Hb0 & Hi0 & Hlog0).
  { unfold tick_asset. by destruct (asset_prices w !! a0). }
  rewrite Hu, Hb, Hi, Hlog, Hu0, Hb0, Hi0, Hlog0.
  split; [|split; [|done]].
  - intros a p [->|Ha]%elem_of_cons Hp.
    + destruct (Hout a0) as [-> ->]; [by left|].
      unfold tick_asset. rewrite Hp. cbn. by rewrite !lookup_insert_eq.
    + assert (a ≠ a0) as Hne by (intros ->; done).
      apply Hin; [done|]. unfold tick_asset.
      destruct (asset_prices w !! a0); [|done]. cbn. by rewrite lookup_insert_ne.
  - intros a Ha.
    assert (asset_prices (tick_asset round4 uniform w a0) !! a = asset_prices w !! a
            ∧ prices (tick_asset round4 uniform w a0) !! a = prices w !! a) as [E1 E2].
    { unfold tick_asset. destruct (asset_prices w !! a0) as [p0|] eqn:E0; [|done].
      cbn. destruct (decide (a = a0)) as [->|Hne].
      - destruct Ha as [Ha|Ha]; [|congruence]. destruct Ha. by left.
      - by rewrite !lookup_insert_ne. }
    rewrite <- E1, <- E2. apply Hout. destruct Ha as [Ha|Ha].
    + left. intros Hin'. apply Ha. by right.
    + right. by rewrite E1.
Qed.

Lemma small_tick_effect (w : world num) :
  let w' := small_tick round4 uniform w in
  (∀ a p, asset_prices w !! a = Some p →
     asset_prices w' !! a = Some (tick_price round4 p (uniform a))
     ∧ prices w' !! a = Some (tick_price round4 p (uniform a)))
  ∧ (∀ a, asset_prices w !! a = None →
       asset_prices w' !! a = None ∧ prices w' !! a = prices w !! a)
  ∧ users w' = users w ∧ balances w' = balances w
  ∧ investments w' = investments w
  ∧ logs w' = logs w ++ [mk_log "INFO" (MsgText "Market tick (small)")].
Proof.
  unfold small_tick.
  destruct (tick_fold (map_to_list (asset_prices w)).*1 w (NoDup_fst_map_to_list _))
    as (Hin & Hout & Hu & Hb & Hi & Hlog).
  unfold log. cbn. rewrite Hu, Hb, Hi, Hlog.
  split; [|split; [|done]].
  - intros a p Hp. apply Hin; [|done].
    apply list_elem_of_fmap. exists (a, p). split; [done|]. by apply elem_of_map_to_list.
  - intros a Hn. destruct (Hout a) as [E1 E2]; [by right|]. by rewrite E1, E2.
Qed.
End Tick.

(** X16: after [small_tick], whatever [round] and the random samples
    return, every asset of [ASSET_PRICES] has the same new price in the
    dictionary and in the table [prices], which is the price [get_price]
    returns, and this price is 0.01 or a value above 0.01; the price rows of
    other assets are as before; users, balances and investments are
    untouched; and exactly one row is appended to the log. *)
Theorem small_tick_mirrors {num : Type} {A : Arith num}
    (round4 : num → num) (uniform : string → num) (w : world num) :
  let w' := small_tick round4 uniform w in
  (∀ asset p, asset_prices w !! asset = Some p →
     let p' := tick_price round4 p (uniform asset) in
     asset_prices w' !! asset = Some p' ∧ get_price w' asset = p'
     ∧ (p' = lit 0.01 ∨ ltb (lit 0.01) p' = true))
  ∧ (∀ asset, asset_prices w !! asset = None →
       asset_prices w' !! asset = None ∧ prices w' !! asset = prices w !! asset)
  ∧ users w' = users w ∧ balances w' = balances w
  ∧ investments w' = investments w
  ∧ logs w' = logs w ++ [mk_log "INFO" (MsgText "Market tick (small)")].
Proof.
  intros w'. subst w'. destruct (small_tick_effect round4 uniform w) as (Hin & Hrest).
  split; [|done]. intros asset p Hp p'.
  destruct (Hin asset p Hp) as [Ea Ep].
  split; [done|]. split; [unfold get_price; by rewrite Ep|].
  apply pymax_floor.
Qed.

Lemma small_tick_mirrors_witness :
  let w' := small_tick (λ x, x) (λ _, lit 0.01) seeded in
  get_price w' "WRRC" = mul 100%float (add (lit 1) (lit 0.01)).
Proof.
  intros w'.
  destruct (small_tick_mirrors (λ x, x) (λ _, lit 0.01) seeded) as [Hin _].
  destruct (Hin "WRRC" 100%float) as (_ & Hg & _).
  - vm_compute. reflexivity.
  - subst w'. rewrite Hg. vm_compute. reflexivity.
Defined.

(** ** More on exact amounts *)

Section ExactMore.
Local Open Scope Qc_scope.
Implicit Types w : world Qc.

Lemma gamble_debit_passes w uid c s r : (gamble w uid c s r).1 ≠ DebitFailed.
Proof.
  rewrite gamble_cases.
  destruct (ltb (add (balance_of w uid c) (lit 1e-9)) s) eqn:Echeck; [done|].
  pose proof (debit_after_check _ _ Echeck
    : ltb (add (balance_of w uid c) (neg s)) (neg (lit 1e-8)) = false) as Hd.
  rewrite Hd. by destruct (ltb r (lit 0.45)).
Qed.
End ExactMore.

(** X17: with exact amounts the funds check of the routes, with its
    tolerance of 1e-9, is the stricter one: [gamble] never answers "Debit
    failed", and whenever [invest] reports a purchase the debit it asked of
    [change_balance], whose result it does not look at, was accepted. *)
Theorem route_debit_never_fails (w : world Qc) (uid : nat) (currency : string) :
  (∀ stake sample, (gamble w uid currency stake sample).1 ≠ DebitFailed)
  ∧ (∀ asset shares cost w',
       invest w uid asset shares currency = inr (Bought shares asset cost currency, w') →
       (change_balance w uid currency (neg cost)).1 = true).
Proof.
  split; [intros stake sample; apply gamble_debit_passes|].
  intros asset shares cost w' Hi. unfold invest in Hi.
  destruct (CURRENCY_RATES_EUR !! currency) as [rate|]; [|done].
  fold (balance_of w uid currency) in Hi.
  destruct (ltb _ _) eqn:Echeck; [done|]. injection Hi as <- _.
  exact (f_equal fst (@change_balance_accept Qc Exact _ _ _ _
                        (debit_after_check _ _ Echeck))).
Qed.

(** ** The debits of the routes, in binary64 *)

Section RouteDebits.
Implicit Types w : world float.

Lemma gamble_debit_passes_f64 w uid c s r : (gamble w uid c s r).1 ≠ DebitFailed.
Proof.
  rewrite gamble_cases.
  destruct (ltb (add (balance_of w uid c) (lit 1e-9)) s) eqn:Echeck; [done|].
  rewrite (f64_check_then_guard _ _ Echeck). by destruct (ltb r (lit 0.45)).
Qed.

Lemma gamble_payout_f64 w uid c s :
  ltb (add (balance_of w uid c) (lit 1e-9)) s = false →
  ltb s (lit 0) = false →
  (change_balance (change_balance w uid c (neg s)).2 uid c (mul s (lit 2))).1 = true.
Proof.
  intros Echeck Hs.
  pose proof (f64_check_then_guard _ _ Echeck) as Hd.
  destruct (change_balance_frame w uid c (neg s)) as (Hb & _).
  rewrite (change_balance_accept _ _ _ _ Hd) in Hb |- *. cbn [fst snd] in Hb |- *.
  specialize (Hb eq_refl).
  refine (f_equal fst (change_balance_accept _ uid c (mul s (lit 2)) _)).
  rewrite Hb. apply (credit_not_below _ F64_ordered); [done|].
  apply (product_not_below _ F64_ordered); [done|]. reflexivity.
Qed.
End RouteDebits.



Section Seeds.
Context {num : Type} `{Arith num}.

(* every balance row after [create_user] is an old row or a seed *)
Lemma create_user_rows (w : world num) name k a :
  balances (create_user w name).2 !! k = Some a →
  a ∈ [lit 0; lit 10; lit 25; lit 50] ∨ balances w !! k = Some a.
Proof.
  unfold create_user.
  destruct (decide (map_Exists _ (users w))); [by right|].
  destruct (decide (map_Exists _ CURRENCY_RATES_EUR)); [by right|].
  cbn. rewrite !lookup_insert_Some, zero_rows.
  intros [[_ <-]|[_ [[_ <-]|[_ [[_ <-]|[_ Hz]]]]]].
  - left. rewrite !elem_of_cons. tauto.
  - left. rewrite !elem_of_cons. tauto.
  - left. rewrite !elem_of_cons. tauto.
  - case_decide; [|by right]. injection Hz as <-. left. rewrite !elem_of_cons. tauto.
Qed.

Lemma create_user_other_tables (w : world num) name :
  investments (create_user w name).2 = investments w
  ∧ prices (create_user w name).2 = prices w
  ∧ asset_prices (create_user w name).2 = asset_prices w.
Proof.
  unfold create_user.
  destruct (decide (map_Exists _ (users w))); [done|].
  by destruct (decide (map_Exists _ CURRENCY_RATES_EUR)).
Qed.
End Seeds.

Section SoundWriters.
Local Open Scope Qc_scope.
Implicit Types w : world Qc.

Lemma tick_price_floor (round4 : Qc → Qc) (p pct : Qc) :
  Q2Qc 0.01 ≤ tick_price round4 p pct.
Proof.
  unfold tick_price. destruct (pymax_floor (lit 0.01) (round4 (mul p (add (lit 1) pct))))
    as [->|Hlt].
  - apply Qcle_refl.
  - apply Qclt_le_weak. by apply Qcltb_true.
Qed.

Lemma floor_nonneg (x : Qc) : Q2Qc 0.01 ≤ x → 0 ≤ x.
Proof.
  intros Hx. eapply Qcle_trans; [|exact Hx]. vm_compute. discriminate.
Qed.

Lemma sound_init_db w : sound w → sound (init_db w).
Proof.
  intros (Sb & Si & Sp & Sa). split; [done|]. split; [done|]. split; [|done].
  intros k x [Hk|[_ Hk]]%lookup_union_Some_raw; [by apply (Sa k)|by apply (Sp k)].
Qed.

Lemma sound_create_user w name : sound w → sound (create_user w name).2.
Proof.
  intros (Sb & Si & Sp & Sa).
  destruct (create_user_other_tables w name) as (Hi & Hp & Ha).
  unfold sound. rewrite Hi, Hp, Ha. split; [|done].
  intros k a [Hseed|Hold]%create_user_rows; [|by apply (Sb k)].
  change (- Q2Qc 1e-8 ≤ a).
  repeat (apply elem_of_cons in Hseed as [->|Hseed]; [vm_compute; discriminate|]).
  by apply elem_of_nil in Hseed.
Qed.

Lemma sound_update_price w asset p : sound w → 0 ≤ p → sound (update_price w asset p).
Proof.
  intros (Sb & Si & Sp & Sa) Hp. split; [done|]. split; [done|]. split; [|done].
  by apply map_Forall_insert_2.
Qed.

Lemma sound_small_tick (round4 : Qc → Qc) (uniform : string → Qc) w :
  sound w → sound (small_tick round4 uniform w).
Proof.
  intros (Sb & Si & Sp & Sa).
  destruct (small_tick_effect round4 uniform w) as (Hin & Hout & _ & Hb & Hi & _).
  unfold sound. rewrite Hb, Hi. split; [done|]. split; [done|]. split.
  - intros k x Hk. destruct (asset_prices w !! k) as [p|] eqn:E.
    + destruct (Hin k p E) as [_ Hp]. rewrite Hp in Hk. injection Hk as <-.
      apply floor_nonneg, tick_price_floor.
    + destruct (Hout k E) as [_ Hp]. rewrite Hp in Hk. by apply (Sp k).
  - intros k x Hk. destruct (asset_prices w !! k) as [p|] eqn:E.
    + destruct (Hin k p E) as [Hp _]. rewrite Hp in Hk. injection Hk as <-.
      apply floor_nonneg, tick_price_floor.
    + destruct (Hout k E) as [Hp _]. by rewrite Hp in Hk.
Qed.
End SoundWriters.

(** X19: with exact amounts, the writers outside the engine keep the ledger
    invariant too (no balance below -1e-8, no negative share count, no
    negative price): [init_db], [create_user], [update_price] with a price
    that is not negative, and [small_tick], whatever [round] and the random
    samples return; and after [small_tick] the price of every asset of
    [ASSET_PRICES] is at least 0.01. *)
Theorem writers_keep_sound (w : world Qc) :
  sound w →
  sound (init_db w)
  ∧ (∀ name, sound (create_user w name).2)
  ∧ (∀ asset p, (0 ≤ p)%Qc → sound (update_price w asset p))
  ∧ (∀ round4 uniform,
       sound (small_tick round4 uniform w)
       ∧ ∀ asset, is_Some (asset_prices w !! asset) →
           (Q2Qc 0.01 ≤ get_price (small_tick round4 uniform w) asset)%Qc).
Proof.
  intros Hs. split; [by apply sound_init_db|]. split; [intros; by apply sound_create_user|].
  split; [intros; by apply sound_update_price|].
  intros round4 uniform. split; [by apply sound_small_tick|].
  intros asset [p Hp].
  destruct (small_tick_effect round4 uniform w) as (Hin & _).
  destruct (Hin asset p Hp) as [_ Hpr]. unfold get_price. rewrite Hpr.
  apply tick_price_floor.
Qed.

Lemma writers_keep_sound_witness :
  sound (create_user (init_db seeded_exact) "carol").2.
Proof.
  refine (proj1 (proj2 (writers_keep_sound (init_db seeded_exact) _)) "carol").
  exact (proj1 (writers_keep_sound seeded_exact seeded_exact_sound)).
Defined.

Section FirstRow.
Context {num : Type} `{Arith num}.

Lemma invest_first_row (w w' : world num) uid asset n currency fl :
  rows_of w uid = [] →
  invest w uid asset n currency = inr (fl, w') → fl ≠ InsufficientFunds →
  rows_of w' uid = [mk_inv uid asset n]
  ∧ users w' = users w ∧ prices w' = prices w ∧ asset_prices w' = asset_prices w.
Proof.
  intros Hrows Hi Hfl. unfold invest in Hi.
  destruct (CURRENCY_RATES_EUR !! currency) as [rate|]; [|done].
  destruct (ltb _ _); [by simplify_eq|]. injection Hi as _ <-.
  set (d := neg (div (mul n (get_price w asset)) rate)).
  destruct (change_balance_frame w uid currency d) as (_ & _ & _ & Hu & Hinv & Hp & Ha).
  destruct (add_investment_spec (change_balance w uid currency d).2 uid asset n)
    as (_ & _ & _ & _ & Hu2 & Hp2 & Ha2).
  rewrite Hu2, Hp2, Ha2, Hu, Hp, Ha. split; [|done].
  unfold rows_of, add_investment. rewrite Hinv.
  destruct (list_find (holds uid asset) (investments w)) as [[i r]|] eqn:Ef.
  - exfalso. apply list_find_Some in Ef as (Hi & [Hr _] & _).
    apply (filter_nil_not_elem_of _ _ r Hrows); [done|].
    by eapply list_elem_of_lookup_2.
  - cbn. rewrite filter_app. fold (rows_of w uid). rewrite Hrows.
    by rewrite filter_cons_True.
Qed.
End FirstRow.

Section RoundTrip.
Local Open Scope Qc_scope.
Implicit Types w : world Qc.

Lemma rate_nonzero (c : string) (rate : Qc) :
  CURRENCY_RATES_EUR !! c = Some rate → rate ≠ 0.
Proof.
  intros Hr%rates_positive ->. by apply Qclt_not_eq in Hr.
Qed.

End RoundTrip.

Section ThenCashout.
Context {num : Type} `{Arith num}.
Local Open Scope num_scope.

Lemma invest_then_cashout (w w1 : world num) uid asset n cost currency today :
  (lit 0 <? lit 50.23) = true →
  rows_of w uid = [] →
  last_cashout_of w uid ≠ Some today →
  invest w uid asset n currency = inr (Bought n asset cost currency, w1) →
  ∃ rate w2, CURRENCY_RATES_EUR !! currency = Some rate
    ∧ cost = n * get_price w asset / rate
    ∧ let total := lit 0 + n * get_price w asset in
      let credit := total / lit 50.23 in
      cashout w1 uid today = (true, CashedOut total credit, w2)
      ∧ balance_of w2 uid "WRR" = balance_of w1 uid "WRR" + credit
      ∧ rows_of w2 uid = [].
Proof.
  intros Hpos Hrows Hlast Hi.
  destruct (invest_first_row _ _ _ _ _ _ _ Hrows Hi) as (Hr1 & Hu1 & Hp1 & Ha1); [done|].
  destruct (invest_effect _ _ _ _ _ _ _ Hi) as (rate & Hrate & Hcost & _); [done|].
  injection Hcost as Hcost.
  destruct (cashout_runs w1 uid today) as (w2 & Hc & Hi2 & Hb2 & _); [|done|].
  { unfold last_cashout_of. rewrite Hu1. exact Hlast. }
  rewrite Hr1 in Hc, Hb2.
  assert (value_of w1 [mk_inv uid asset n] = lit 0 + n * get_price w asset) as Hv.
  { unfold value_of, get_price. cbn [foldl inv_shares inv_asset]. by rewrite Hp1, Ha1. }
  rewrite Hv in Hc, Hb2.
  exists rate, w2. split; [done|]. split; [done|]. intros total credit.
  split; [exact Hc|]. split.
  - by eapply balance_of_insert_eq.
  - unfold rows_of. rewrite Hi2. apply rows_of_cleared.
Qed.
End ThenCashout.



(** In binary64 the two quotients are rounded separately. *)
#[warnings="-inexact-float"]
Example invest_then_cashout_binary64 :
  (let w1 := step seeded (Invest 1 "LBC" 0.3%float "LC") in
   match invest seeded 1 "LBC" 0.3%float "LC", cashout w1 1 "2024-05-01" with
   | inr (Bought _ _ cost _, _), (true, CashedOut _ credit, _) =>
       ¬ (f64_value credit * 50.23 == f64_value cost * 20.54)%Q
   | _, _ => False
   end)
  ∧ (let w0 := step seeded (AdjustBalance 1 "WRR" 0.1%float) in
     let w1 := step w0 (Invest 1 "WRRC" 0.31%float "WRR") in
     let w2 := step w1 (Cashout 1 "2024-05-01") in
     rows_of w0 1 = [] ∧ position w1 1 "WRRC" = Some 0.31%float
     ∧ balance_of w0 1 "WRR" = 10.1%float
     ∧ balance_of w2 1 "WRR" = 10.100000000000001%float).
Proof.
  split.
  - vm_compute. intros E. discriminate.
  - vm_compute. repeat split.
Qed.

Section Dict.
Context {num : Type} `{Arith num}.

Lemma get_balances_insert (w w' : world num) u c x :
  balances w' = <[(u, c) := x]> (balances w) →
  get_balances w' u = <[c := x]> (get_balances w u)
  ∧ ∀ u', u' ≠ u → get_balances w' u' = get_balances w u'.
Proof.
  intros E. split.
  - apply map_eq. intros c'. rewrite get_balances_lookup, E.
    destruct (decide (c' = c)) as [->|Hne].
    + by rewrite !lookup_insert_eq.
    + rewrite !lookup_insert_ne by congruence. by rewrite get_balances_lookup.
  - intros u' Hne. apply map_eq. intros c'. rewrite !get_balances_lookup, E.
    by rewrite lookup_insert_ne by congruence.
Qed.
End Dict.


